(** * dashboard: the item store and the filter-then-group evaluator

    A shallow embedding of [pkg/itemstore/itemstore.go] and of the grouping
    and filtering code of the revisions of [main.go], with the properties
    the design document states about them.

    Go values are modelled as follows.
    - [string] is a sequence of bytes: Rocq's [string]; [==] is equality and
      [<] the byte-wise lexicographic order ([String.ltb]).
    - [int] is [Z]; the code only compares ids with [0] and prints them.
    - [[]Item] is [list Item] where only the contents matter, and a slice
      header into a store of backing arrays (module [mem]) where sharing
      matters.
    - [map[string]T] is [gmap string T]; a [range] over a map visits its
      entries in an order the runtime picks, so a loop over a map is modelled
      on an arbitrary permutation of [map_to_list].
    - [error] is an inductive type with the message as a function of it. *)

From Stdlib Require Import Ascii DecimalString.
From stdpp Require Import gmap strings list sorting.

Open Scope Z_scope.

(** ** The parts of Go's standard library the code calls *)

Module strings.

(** [unicode.IsSpace] on the UTF-8 encoding.  The code points with the
    White_Space property are U+0009..U+000D, U+0020, U+0085, U+00A0, U+1680,
    U+2000..U+200A, U+2028, U+2029, U+202F, U+205F and U+3000; they take one,
    two or three bytes. *)
Definition byte (a : ascii) : N := N_of_ascii a.

Definition IsSpace1 (a : ascii) : bool :=
  let x := byte a in
  ((9 <=? x) && (x <=? 13) || (x =? 32))%N.

Definition IsSpace2 (a b : ascii) : bool :=
  let x := byte a in let y := byte b in
  ((x =? 194) && ((y =? 133) || (y =? 160)))%N.

Definition IsSpace3 (a b c : ascii) : bool :=
  let x := byte a in let y := byte b in let z := byte c in
  ((x =? 225) && (y =? 154) && (z =? 128)
   || (x =? 226) && (y =? 128)
      && ((128 <=? z) && (z <=? 138) || (z =? 168) || (z =? 169) || (z =? 175))
   || (x =? 226) && (y =? 129) && (z =? 159)
   || (x =? 227) && (y =? 128) && (z =? 128))%N.

(** [strings.TrimLeftFunc(s, unicode.IsSpace)]: decode one rune at the front,
    drop it when it is white space, stop at the first rune that is not (an
    invalid encoding decodes to U+FFFD, which is not white space). *)
Fixpoint TrimLeft (s : string) : string :=
  match s with
  | String a s1 =>
      if IsSpace1 a then TrimLeft s1 else
      match s1 with
      | String b s2 =>
          if IsSpace2 a b then TrimLeft s2 else
          match s2 with
          | String c s3 => if IsSpace3 a b c then TrimLeft s3 else s
          | EmptyString => s
          end
      | EmptyString => s
      end
  | EmptyString => s
  end.

(** The same from the back, on the reversed string: the last rune of [s] is
    white space when [s] ends with the encoding of a white-space code point. *)
Fixpoint TrimLeft_rev (r : string) : string :=
  match r with
  | String c r1 =>
      if IsSpace1 c then TrimLeft_rev r1 else
      match r1 with
      | String b r2 =>
          if IsSpace2 b c then TrimLeft_rev r2 else
          match r2 with
          | String a r3 => if IsSpace3 a b c then TrimLeft_rev r3 else r
          | EmptyString => r
          end
      | EmptyString => r
      end
  | EmptyString => r
  end.

Definition TrimRight (s : string) : string :=
  String.rev (TrimLeft_rev (String.rev s)).

(** [strings.TrimSpace]: all leading and trailing white space removed. *)
Definition TrimSpace (s : string) : string := TrimRight (TrimLeft s).

(** [%d] of [fmt]: the decimal digits, with a minus sign below zero. *)
Definition itoa (n : Z) : string := NilZero.string_of_int (Z.to_int n).

(** [strings.Index(s, ":")], as the two sides of the first colon of [s]. *)
Fixpoint cut_colon (s : string) : option (string * string) :=
  match s with
  | EmptyString => None
  | String a rest =>
      if Ascii.eqb a ":" then Some (EmptyString, rest)
      else match cut_colon rest with
           | Some (before, after) => Some (String a before, after)
           | None => None
           end
  end.

(** A string without a colon. *)
Definition no_colon (s : string) : Prop :=
  ∀ before after, s ≠ before +:+ ":" +:+ after.

(** [strings.SplitN(s, ":", 2)], the one call of [SplitN] in the code: [s]
    itself when it has no colon, and else the two sides of its first colon. *)
Definition SplitN_colon_2 (s : string) : list string :=
  match cut_colon s with
  | Some (before, after) => [before; after]
  | None => [s]
  end.

(** [strings.ToLower] and [strings.ToUpper].  On a string of ASCII bytes
    they work byte by byte; on any other string they go through the Unicode
    tables, [strings.Map(unicode.ToLower, s)], which is left as the parameter
    [Map]. *)
Fixpoint isASCII (s : string) : bool :=
  match s with
  | EmptyString => true
  | String a rest => (byte a <? 128)%N && isASCII rest
  end.

(** On a string of ASCII bytes white space is a matter of single bytes:
    [all_space] says that the string has no other byte, [drop_space] takes
    away the white space at its front. *)
Fixpoint all_space (s : string) : bool :=
  match s with
  | EmptyString => true
  | String a rest => IsSpace1 a && all_space rest
  end.

Fixpoint drop_space (s : string) : string :=
  match s with
  | EmptyString => s
  | String a rest => if IsSpace1 a then drop_space rest else s
  end.

Definition lower (a : ascii) : ascii :=
  if ((65 <=? byte a) && (byte a <=? 90))%N then ascii_of_N (byte a + 32) else a.

Definition upper (a : ascii) : ascii :=
  if ((97 <=? byte a) && (byte a <=? 122))%N then ascii_of_N (byte a - 32) else a.

Fixpoint map_bytes (f : ascii → ascii) (s : string) : string :=
  match s with
  | EmptyString => EmptyString
  | String a rest => String (f a) (map_bytes f rest)
  end.

Definition ToLower (Map : string → string) (s : string) : string :=
  if isASCII s then map_bytes lower s else Map s.

Definition ToUpper (Map : string → string) (s : string) : string :=
  if isASCII s then map_bytes upper s else Map s.

End strings.

Module sort.

(** [s1 < s2] on Go strings. *)
Definition less (s1 s2 : string) : Prop := String.ltb s1 s2 = true.

(** [sort.Strings]: the slice in increasing order.  Go's algorithm is not
    spelled out here; a merge sort stands for it, and [Strings_any_algorithm]
    below shows that every algorithm that returns a sorted permutation returns
    the same slice. *)
Definition Strings (l : list string) : list string := merge_sort String.le l.

(** [sort.Slice(x, less)] with [less(i, j) = key x[i] < key x[j]]. *)
Definition key_le {A} (key : A → string) (x y : A) : Prop :=
  String.le (key x) (key y).

Definition key_lt {A} (key : A → string) (x y : A) : Prop :=
  less (key x) (key y).

#[global] Instance key_le_dec {A} (key : A → string) : RelDecision (key_le key).
Proof. intros x y. unfold key_le. apply _. Defined.

#[global] Instance key_le_total {A} (key : A → string) : Total (key_le key).
Proof. intros x y. unfold key_le. apply (total String.le). Qed.

#[global] Instance key_le_trans {A} (key : A → string) : Transitive (key_le key).
Proof. intros x y z. unfold key_le. apply (transitivity (R:=String.le)). Qed.

Definition Slice {A} (key : A → string) (l : list A) : list A :=
  merge_sort (key_le key) l.

End sort.

(** ** pkg/itemstore/itemstore.go *)

Module itemstore.

Record Item := mkItem {
  ID : Z;
  Color : string;
  Shape : string;
  Category : string
}.

#[global] Instance Item_eq_dec : EqDecision Item.
Proof. solve_decision. Defined.

(** The errors [Validate] and [New] build with [fmt.Errorf]; [InvalidItemAt]
    wraps its cause, as [%w] does in [New]. *)
Inductive error :=
| InvalidID (id : Z)
| EmptyFields (id : Z)
| InvalidItemAt (index : nat) (cause : error).

Fixpoint Error (e : error) : string :=
  match e with
  | InvalidID id => "invalid item ID: " +:+ strings.itoa id
  | EmptyFields id => "item " +:+ strings.itoa id +:+ " has empty fields"
  | InvalidItemAt i cause =>
      "invalid item at index " +:+ strings.itoa (Z.of_nat i) +:+ ": " +:+ Error cause
  end.

(** [func (i Item) Validate() error]; [None] is [nil].  The receiver is a
    value: the trimmed strings live in the method's own copy of the item. *)
Definition Validate (i : Item) : option error :=
  if bool_decide (ID i ≤ 0) then Some (InvalidID (ID i)) else
  let i := {| ID := ID i;
              Color := strings.TrimSpace (Color i);
              Shape := strings.TrimSpace (Shape i);
              Category := strings.TrimSpace (Category i) |} in
  if bool_decide (Color i = "") || bool_decide (Shape i = "")
     || bool_decide (Category i = "")
  then Some (EmptyFields (ID i))
  else None.

Record ItemStore := mkStore { items : list Item }.

(** The loop of [New]: [i] is the index of the head of [l]. *)
Fixpoint validate_from (i : nat) (l : list Item) : option error :=
  match l with
  | [] => None
  | item :: l =>
      match Validate item with
      | Some err => Some (InvalidItemAt i err)
      | None => validate_from (S i) l
      end
  end.

(** [func New(items []Item)], which returns a store pointer and an error:
    [inl err] is [(nil, err)] and [inr s] is [(s, nil)]. *)
Definition New (items : list Item) : error + ItemStore :=
  match validate_from 0 items with
  | Some err => inl err
  | None => inr {| items := items |}
  end.

(** The [switch key] in the loop of [Filter], for one entry of [filters]:
    [false] is [continue ItemLoop]; a key that no [case] names falls through
    the [switch]. *)
Definition filter_entry (item : Item) (entry : string * string) : bool :=
  let '(key, value) := entry in
  if decide (key = "color") then bool_decide (Color item = value)
  else if decide (key = "shape") then bool_decide (Shape item = value)
  else if decide (key = "category") then bool_decide (Category item = value)
  else true.

(** The inner loop [for key, value := range filters], on the order [entries]
    in which the runtime visits the map. *)
Definition matches (item : Item) (entries : list (string * string)) : bool :=
  forallb (filter_entry item) entries.

(** The outer loop; [result] is the slice built so far. *)
Fixpoint filter_loop (entries : list (string * string)) (l : list Item)
    (result : list Item) : list Item :=
  match l with
  | [] => result
  | item :: l =>
      if matches item entries
      then filter_loop entries l (result ++ [item])
      else filter_loop entries l result
  end.

(** [func (s *ItemStore) Filter(filters map[string]string) []Item], as the
    contents of the slice it returns ([mem.Filter] has the allocation). *)
Definition Filter (s : ItemStore) (filters : gmap string string) : list Item :=
  if decide (size filters = 0%nat) then items s
  else filter_loop (map_to_list filters) (items s) [].

(** The same when the runtime visits [filters] in the order [range i] while
    the outer loop is at the [i]-th record of the store. *)
Fixpoint filter_loop_ranging (range : nat → list (string * string)) (i : nat)
    (l : list Item) (result : list Item) : list Item :=
  match l with
  | [] => result
  | item :: l =>
      if matches item (range i)
      then filter_loop_ranging range (S i) l (result ++ [item])
      else filter_loop_ranging range (S i) l result
  end.

Definition Filter_ranging
    (range : nat → gmap string string → list (string * string))
    (s : ItemStore) (filters : gmap string string) : list Item :=
  if decide (size filters = 0%nat) then items s
  else filter_loop_ranging (λ i, range i filters) 0 (items s) [].

(** The [switch property] in the loop of [GetUniqueValues]: [None] is the
    [default] branch, which skips the item. *)
Definition switch_property (property : string) (item : Item) : option string :=
  if decide (property = "color") then Some (Color item)
  else if decide (property = "shape") then Some (Shape item)
  else if decide (property = "category") then Some (Category item)
  else None.

(** The loop of [GetUniqueValues]: [values] is the set of strings seen and
    [result] the slice built so far. *)
Fixpoint unique_loop (property : string) (l : list Item)
    (values : gset string) (result : list string) : list string :=
  match l with
  | [] => result
  | item :: l =>
      match switch_property property item with
      | None => unique_loop property l values result
      | Some value =>
          if decide (value ∈ values)
          then unique_loop property l values result
          else unique_loop property l ({[value]} ∪ values) (result ++ [value])
      end
  end.

(** [func (s *ItemStore) GetUniqueValues(property string) []string]. *)
Definition GetUniqueValues (s : ItemStore) (property : string) : list string :=
  sort.Strings (unique_loop property (items s) ∅ []).

(** The string attributes of an item, under the names the [json] tags of the
    struct give them, and the attribute a key names. *)
Definition fields (item : Item) : gmap string string :=
  <["color" := Color item]>
    (<["shape" := Shape item]> (<["category" := Category item]> ∅)).

Definition attribute (key : string) (item : Item) : option string :=
  fields item !! key.

(** The attribute keys. *)
Definition recognized (key : string) : Prop :=
  key = "color" ∨ key = "shape" ∨ key = "category".

#[global] Instance recognized_dec key : Decision (recognized key).
Proof. unfold recognized. apply _. Defined.

(** A record meets a filter set when it has the required value at each key. *)
Definition meets (filters : gmap string string) (item : Item) : Prop :=
  map_Forall (λ key value, attribute key item = Some value) filters.

#[global] Instance meets_dec filters item : Decision (meets filters item).
Proof. unfold meets. apply _. Defined.

(** What [Validate] rejects: an id that is not positive, or an attribute
    that is empty once white space is trimmed. *)
Definition invalid (item : Item) : Prop :=
  ID item ≤ 0
  ∨ strings.TrimSpace (Color item) = ""
  ∨ strings.TrimSpace (Shape item) = ""
  ∨ strings.TrimSpace (Category item) = "".

#[global] Instance invalid_dec item : Decision (invalid item).
Proof. unfold invalid. apply _. Defined.

(** The reason [Validate] gives for an invalid item. *)
Definition reason (item : Item) : error :=
  if decide (ID item ≤ 0) then InvalidID (ID item) else EmptyFields (ID item).

(** The set of values that the attribute [key] takes on the records [l]. *)
Definition values (key : string) (l : list Item) : gset string :=
  list_to_set (omap (attribute key) l).

(** A string is trimmed when [strings.TrimSpace] leaves it as it is. *)
Definition trimmed (s : string) : Prop := strings.TrimSpace s = s.

(** The display formats.  [MapToUpper] and [MapToLower] stand for what
    [strings.ToUpper] and [strings.ToLower] do to a string that is not all
    ASCII. *)
Section format.

Variable MapToUpper MapToLower : string → string.

(** [formatTitle]: [s[:1]] in upper case and [s[1:]] in lower case. *)
Definition formatTitle (s : string) : string :=
  match s with
  | EmptyString => s
  | String a rest =>
      strings.ToUpper MapToUpper (String a EmptyString)
      +:+ strings.ToLower MapToLower rest
  end.

Definition formatColor (color : string) : string :=
  strings.ToLower MapToLower color.

Definition formatShape (shape : string) : string :=
  let shape := strings.ToLower MapToLower shape in
  if decide (shape = "triangle") then "triangle"
  else if decide (shape = "circle") then "circle"
  else if decide (shape = "square") then "square"
  else shape.

(** [func (i Item) Format() Item]. *)
Definition Format (i : Item) : Item :=
  {| ID := ID i;
     Color := formatColor (Color i);
     Shape := formatShape (Shape i);
     Category := formatTitle (Category i) |}.

End format.

(** An item whose three strings are ASCII. *)
Definition ascii_item (i : Item) : Prop :=
  strings.isASCII (Color i) = true
  ∧ strings.isASCII (Shape i) = true
  ∧ strings.isASCII (Category i) = true.

(** [testItems] of [itemstore_test.go]. *)
Definition testItems : list Item :=
  [ mkItem 1 "red" "circle" "A";
    mkItem 2 "blue" "square" "A";
    mkItem 3 "red" "square" "B";
    mkItem 4 "green" "circle" "B" ].

End itemstore.

(** ** Slices and their backing arrays

    What [Filter] allocates and what it shares: a slice is [nil] or a window
    on an array of the heap; the capacity of [Slice a off n] is what is left
    of the array [a] after [off]. *)

Module mem.

Export itemstore(Item, mkItem, ID, Color, Shape, Category).

Definition loc := positive.

Inductive slice :=
| nil
| Slice (arr : loc) (off len : nat).

Abbreviation heap := (gmap loc (list Item)).

Definition zero : Item := mkItem 0 "" "" "".

Definition len (s : slice) : nat :=
  match s with
  | nil => 0
  | Slice _ _ n => n
  end.

Definition array (h : heap) (a : loc) : list Item := default [] (h !! a).

(** The elements of a slice. *)
Definition contents (h : heap) (s : slice) : list Item :=
  match s with
  | nil => []
  | Slice a off n => take n (drop off (array h a))
  end.

(** A slice of the heap lies within an array the heap holds. *)
Definition valid (h : heap) (s : slice) : Prop :=
  match s with
  | nil => True
  | Slice a off n => a ∈ dom h ∧ (off + n ≤ length (array h a))%nat
  end.

(** [make([]Item, n)]. *)
Definition make (n : nat) (h : heap) : slice * heap :=
  let a := fresh (dom h) in
  (Slice a 0 n, <[a := replicate n zero]> h).

(** [copy(dst, src)]: the first [min (len dst) (len src)] elements. *)
Definition copy (dst src : slice) (h : heap) : heap :=
  match dst with
  | nil => h
  | Slice a off n =>
      let elems := take n (contents h src) in
      let arr := array h a in
      <[a := take off arr ++ elems ++ drop (off + length elems) arr]> h
  end.

(** [s[i] = x]; [None] is the panic of an index out of range. *)
Definition store (s : slice) (i : nat) (x : Item) (h : heap) : option heap :=
  match s with
  | nil => None
  | Slice a off n =>
      if decide (i < n)%nat
      then Some (<[a := <[(off + i)%nat := x]> (array h a)]> h)
      else None
  end.

(** [append(s, x)]: in place when the capacity allows, else into a new array
    (of twice the length, plus one; the language leaves the growth open). *)
Definition append (s : slice) (x : Item) (h : heap) : slice * heap :=
  match s with
  | nil =>
      let a := fresh (dom h) in
      (Slice a 0 1, <[a := [x]]> h)
  | Slice a off n =>
      let arr := array h a in
      if decide (off + n < length arr)%nat
      then (Slice a off (S n), <[a := <[(off + n)%nat := x]> arr]> h)
      else
        let a' := fresh (dom h) in
        (Slice a' 0 (S n), <[a' := contents h s ++ x :: replicate n zero]> h)
  end.

(** The store holds the slice header it was given. *)
Record ItemStore := mkStore { items : slice }.

(** [New] keeps the header of the seed slice: the store and the caller share
    the backing array. *)
Definition New (seed : slice) (h : heap) : itemstore.error + ItemStore :=
  match itemstore.validate_from 0 (contents h seed) with
  | Some err => inl err
  | None => inr {| items := seed |}
  end.

Fixpoint filter_loop (entries : list (string * string)) (l : list Item)
    (result : slice) (h : heap) : slice * heap :=
  match l with
  | [] => (result, h)
  | item :: l =>
      if itemstore.matches item entries
      then let '(result, h) := append result item h in
           filter_loop entries l result h
      else filter_loop entries l result h
  end.

(** [Filter] with its allocations: the slice returned and the heap after
    the call. *)
Definition Filter (s : ItemStore) (filters : gmap string string) (h : heap)
    : slice * heap :=
  if decide (size filters = 0%nat) then
    let '(result, h) := make (len (items s)) h in
    let h := copy result (items s) h in
    (result, h)
  else filter_loop (map_to_list filters) (contents h (items s)) nil h.

(** Two slices on different arrays. *)
Definition apart (s t : slice) : Prop :=
  match s, t with
  | Slice a _ _, Slice b _ _ => a ≠ b
  | _, _ => True
  end.

(** [testItems] in the array at address 1, and the slice of all of it. *)
Definition testHeap : heap := {[ 1%positive := itemstore.testItems ]}.

Definition testSeed : slice := Slice 1%positive 0 4.

End mem.

(** ** main.go, the revisions that group into a slice of [GroupedItems] *)

Module main.

Export itemstore(Item, mkItem, ID, Color, Shape, Category).

Definition PropertyGetter := Item → string.

Record GroupedItems := mkGroup {
  GroupName : string;
  Property : string;
  Items : list Item
}.

#[global] Instance GroupedItems_eq_dec : EqDecision GroupedItems.
Proof. solve_decision. Defined.

(** [getPropertyGetter]: [None] is [(nil, false)]. *)
Definition getPropertyGetter (property : string) : option PropertyGetter :=
  if decide (property = "color") then Some Color
  else if decide (property = "shape") then Some Shape
  else if decide (property = "category") then Some Category
  else None.

(** The first loop of [groupItems]; a key the map does not hold reads as the
    nil slice. *)
Fixpoint group_loop (getter : PropertyGetter) (items : list Item)
    (groupMap : gmap string (list Item)) : gmap string (list Item) :=
  match items with
  | [] => groupMap
  | item :: items =>
      let value := getter item in
      group_loop getter items
        (<[value := default [] (groupMap !! value) ++ [item]]> groupMap)
  end.

(** The second loop, on the order [visited] in which [range groupMap] yields
    the entries. *)
Definition collect (groupBy : string) (visited : list (string * list Item))
    : list GroupedItems :=
  (λ entry, {| GroupName := entry.1; Property := groupBy; Items := entry.2 |})
    <$> visited.

(** [groupItems], given how the runtime orders the entries of a map. *)
Definition groupItems_ranging
    (range : gmap string (list Item) → list (string * list Item))
    (items : list Item) (groupBy : string) : list GroupedItems :=
  match getPropertyGetter groupBy with
  | None => [ {| GroupName := "All Items"; Property := groupBy; Items := items |} ]
  | Some getter =>
      sort.Slice GroupName (collect groupBy (range (group_loop getter items ∅)))
  end.

(** A [range] over a map yields each entry once, in some order. *)
Definition map_range (range : gmap string (list Item) → list (string * list Item))
    : Prop :=
  ∀ m, range m ≡ₚ map_to_list m.

Definition groupItems : list Item → string → list GroupedItems :=
  groupItems_ranging map_to_list.

(** The filter block of [itemsHandler]: one pair [filterBy], [filterValue]
    from the query, over the package's [items]. *)
Definition itemsHandler_filter (items : list Item) (filterBy filterValue : string)
    : list Item :=
  if bool_decide (filterBy ≠ "") && bool_decide (filterValue ≠ "") then
    match getPropertyGetter filterBy with
    | Some getter =>
        List.filter (λ item, bool_decide (getter item = filterValue)) items
    | None => []
    end
  else items.

(** [getUniqueValues], of the revision that keeps [Validate] in [main.go]:
    [valueMap] reads [false] at a key it does not hold. *)
Fixpoint getUniqueValues_loop (getter : PropertyGetter) (items : list Item)
    (valueMap : gmap string bool) (values : list string) : list string :=
  match items with
  | [] => values
  | item :: items =>
      let value := getter item in
      if default false (valueMap !! value)
      then getUniqueValues_loop getter items valueMap values
      else getUniqueValues_loop getter items
             (<[value := true]> valueMap) (values ++ [value])
  end.

Definition getUniqueValues (items : list Item) (getter : PropertyGetter)
    : list string :=
  sort.Strings (getUniqueValues_loop getter items ∅ []).

(** What [itemsHandler] hands to the template as [Groups]: the query
    parameter [groupBy] defaults to ["shape"]. *)
Definition itemsHandler_groups (items : list Item)
    (filterBy filterValue groupBy : string) : list GroupedItems :=
  let groupBy := if decide (groupBy = "") then "shape" else groupBy in
  groupItems (itemsHandler_filter items filterBy filterValue) groupBy.

End main.

(** ** main.go, the revision on top of [itemstore] *)

Module main_store.

Export itemstore(Item, mkItem, ID, Color, Shape, Category).

(** [groupItems] of this revision returns the map itself. *)
Definition groupItems (items : list Item) (groupBy : string)
    : gmap string (list Item) :=
  if decide (groupBy = "color") then main.group_loop Color items ∅
  else if decide (groupBy = "shape") then main.group_loop Shape items ∅
  else if decide (groupBy = "category") then main.group_loop Category items ∅
  else <["All" := items]> ∅.

(** [url.Values], the parsed query, and its [Get]: the first value under
    the key, or the empty string. *)
Abbreviation Values := (gmap string (list string)).

Definition Get (q : Values) (key : string) : string :=
  match q !! key with
  | Some (value :: _) => value
  | _ => ""
  end.

(** The loop of [itemsHandler] over the [filter] parameters, each of the
    form [key:value]. *)
Fixpoint parse_filters (params : list string) (filters : gmap string string)
    : gmap string string :=
  match params with
  | [] => filters
  | filter :: params =>
      match strings.SplitN_colon_2 filter with
      | [key; value] => parse_filters params (<[key := value]> filters)
      | _ => parse_filters params filters
      end
  end.

(** The filter set of a request: the [filter] parameters, then the pair
    [filterBy], [filterValue] of the old format. *)
Definition request_filters (q : Values) : gmap string string :=
  let filters := parse_filters (default [] (q !! "filter")) ∅ in
  let filterBy := Get q "filterBy" in
  if decide (filterBy ≠ "") then
    let filterValue := Get q "filterValue" in
    if decide (filterValue ≠ "") then <[filterBy := filterValue]> filters
    else filters
  else filters.

Definition request_groupBy (q : Values) : string :=
  let groupBy := Get q "groupBy" in
  if decide (groupBy = "") then "shape" else groupBy.

(** The loops that count, for the sidebar, the records under each value of
    a property. *)
Fixpoint count_loop (store : itemstore.ItemStore) (property : string)
    (values : list string) (counts : gmap string nat) : gmap string nat :=
  match values with
  | [] => counts
  | value :: values =>
      count_loop store property values
        (<[value := length (itemstore.Filter store {[property := value]})]> counts)
  end.

Definition unique_counts (store : itemstore.ItemStore) (property : string)
    : gmap string nat :=
  count_loop store property (itemstore.GetUniqueValues store property) ∅.

(** The data that [itemsHandler] hands to the template. *)
Record templateData := mkData {
  Title : string;
  GroupedItems : gmap string (list Item);
  GroupBy : string;
  UniqueColors : gmap string nat;
  UniqueShapes : gmap string nat;
  UniqueCategories : gmap string nat;
  ActiveFilters : gmap string string;
  AllItems : list Item
}.

Definition itemsHandler (store : itemstore.ItemStore) (q : Values) : templateData :=
  let groupBy := request_groupBy q in
  let filters := request_filters q in
  let filteredItems := itemstore.Filter store filters in
  {| Title := "Dashboard";
     GroupedItems := groupItems filteredItems groupBy;
     GroupBy := groupBy;
     UniqueColors := unique_counts store "color";
     UniqueShapes := unique_counts store "shape";
     UniqueCategories := unique_counts store "category";
     ActiveFilters := filters;
     AllItems := itemstore.Filter store ∅ |}.

(** [sampleItems] of [init]. *)
Definition sampleItems : list Item :=
  [ mkItem 1 "red" "circle" "A";
    mkItem 2 "blue" "square" "A";
    mkItem 3 "green" "triangle" "B";
    mkItem 4 "red" "square" "B";
    mkItem 5 "blue" "circle" "C";
    mkItem 6 "green" "square" "C" ].

End main_store.

(** ** The first two revisions of main.go *)

(** The revision that moves the matching records to the front. *)
Module main_v0.

Export itemstore(Item, mkItem, ID, Color, Shape, Category).

(** The [switch filterBy] of [itemsHandler]. *)
Definition matches (item : Item) (filterBy filterValue : string) : bool :=
  if decide (filterBy = "color") then bool_decide (Color item = filterValue)
  else if decide (filterBy = "shape") then bool_decide (Shape item = filterValue)
  else if decide (filterBy = "category") then bool_decide (Category item = filterValue)
  else false.

(** The two loops of [itemsHandler]; [filteredItems] is the slice built so
    far. *)
Fixpoint append_if (keep : Item → bool) (items : list Item)
    (filteredItems : list Item) : list Item :=
  match items with
  | [] => filteredItems
  | item :: items =>
      if keep item
      then append_if keep items (filteredItems ++ [item])
      else append_if keep items filteredItems
  end.

(** The [Items] that [itemsHandler] hands to the template. *)
Definition itemsHandler_items (items : list Item) (filterBy filterValue : string)
    : list Item :=
  if bool_decide (filterBy ≠ "") && bool_decide (filterValue ≠ "") then
    let filteredItems :=
      append_if (λ item, matches item filterBy filterValue) items [] in
    append_if (λ item, negb (matches item filterBy filterValue)) items filteredItems
  else items.

End main_v0.

(** The revision that filters and groups by shape. *)
Module main_v1.

Export itemstore(Item, mkItem, ID, Color, Category).

Record GroupedItems := mkGroup {
  Shape : string;
  Items : list Item
}.

Definition itemsHandler_filter (items : list Item) (filterBy filterValue : string)
    : list Item :=
  if bool_decide (filterBy ≠ "") && bool_decide (filterValue ≠ "") then
    main_v0.append_if (λ item, main_v0.matches item filterBy filterValue) items []
  else items.

(** The [Groups] that [itemsHandler] hands to the template, given how the
    runtime orders the entries of [shapeMap]. *)
Definition itemsHandler_groups
    (range : gmap string (list Item) → list (string * list Item))
    (items : list Item) (filterBy filterValue : string) : list GroupedItems :=
  let filteredItems := itemsHandler_filter items filterBy filterValue in
  let shapeMap := main.group_loop itemstore.Shape filteredItems ∅ in
  sort.Slice Shape
    ((λ entry, {| Shape := entry.1; Items := entry.2 |}) <$> range shapeMap).

End main_v1.

(** ** The filter state of the page (the script under test in the Jest
    tests) *)

Module filters_js.

(** [s.split(':')]. *)
Fixpoint split (s : string) : list string :=
  match s with
  | EmptyString => [EmptyString]
  | String a rest =>
      if Ascii.eqb a ":" then EmptyString :: split rest
      else match split rest with
           | first :: others => String a first :: others
           | [] => [String a EmptyString]
           end
  end.

(** [const [type, value] = filter.split(':'); if (type && value) ...]: the
    first two parts, when both are there and not empty. *)
Definition parse (filter : string) : option (string * string) :=
  match split filter with
  | type :: value :: _ =>
      if bool_decide (type ≠ "") && bool_decide (value ≠ "")
      then Some (type, value) else None
  | _ => None
  end.

(** [currentFilters], read from the [filter] parameters of the URL. *)
Definition currentFilters (params : list string) : list (string * string) :=
  omap parse params.

(** [findIndex]: the index of the first element that passes, if any. *)
Definition findIndex {A} (P : A → Prop) `{∀ x, Decision (P x)} (l : list A)
    : option nat :=
  fst <$> list_find P l.

(** The update of [currentFilters] by [setActiveFilter(filterType,
    filterValue)]: the same filter is removed, a filter of the same type is
    replaced, and else the filter is added at the end. *)
Definition update (currentFilters : list (string * string))
    (filterType filterValue : string) : list (string * string) :=
  match findIndex (λ f, f.1 = filterType ∧ f.2 = filterValue) currentFilters with
  | Some existingFilterIndex => delete existingFilterIndex currentFilters
  | None =>
      match findIndex (λ f, f.1 = filterType) currentFilters with
      | Some sameTypeIndex =>
          <[sameTypeIndex := (filterType, filterValue)]> currentFilters
      | None => currentFilters ++ [(filterType, filterValue)]
      end
  end.

(** [`${filter.type}:${filter.value}`]. *)
Definition encode (f : string * string) : string := f.1 +:+ ":" +:+ f.2.

(** [newParams], the query of the URL that [setActiveFilter] requests: the
    filters, and the grouping of the current URL or ["shape"]. *)
Definition setActiveFilter (params : main_store.Values)
    (filterType filterValue : string) : main_store.Values :=
  let filters :=
    update (currentFilters (default [] (params !! "filter"))) filterType filterValue in
  let currentGroupBy :=
    let g := main_store.Get params "groupBy" in
    if decide (g = "") then "shape" else g in
  let newParams : main_store.Values :=
    match filters with
    | [] => ∅
    | _ => {[ "filter" := encode <$> filters ]}
    end in
  <["groupBy" := [currentGroupBy]]> newParams.

End filters_js.

(** * Properties *)

(** Closes [¬ recognized k] for a literal [k] that is not an attribute key. *)
Ltac not_an_attribute_key :=
  let H := fresh in intros [H|[H|H]]; discriminate H.

(** ** The model on the tests of the repository

    The cases of [itemstore_test.go], and the scenarios of the design
    document on the same four records. *)

Section tests.

Import itemstore.

Example TestItemStore_Filter :
  length (Filter (mkStore testItems) ∅) = 4%nat
  ∧ length (Filter (mkStore testItems) {["color" := "red"]}) = 2%nat
  ∧ length (Filter (mkStore testItems) {["shape" := "square"]}) = 2%nat
  ∧ length (Filter (mkStore testItems)
              (<["color" := "red"]> {["shape" := "square"]})) = 1%nat
  ∧ length (Filter (mkStore testItems) {["color" := "purple"]}) = 0%nat.
Proof. repeat split. Qed.

Example TestItemStore_GetUniqueValues :
  GetUniqueValues (mkStore testItems) "color" = ["blue"; "green"; "red"]
  ∧ GetUniqueValues (mkStore testItems) "shape" = ["circle"; "square"]
  ∧ GetUniqueValues (mkStore testItems) "category" = ["A"; "B"]
  ∧ GetUniqueValues (mkStore testItems) "invalid" = [].
Proof. repeat split. Qed.

Example TestItem_Validate :
  Validate (mkItem 1 "red" "circle" "A") = None
  ∧ Validate (mkItem 0 "red" "circle" "A") = Some (InvalidID 0)
  ∧ Validate (mkItem 1 "" "circle" "A") = Some (EmptyFields 1)
  ∧ Validate (mkItem 1 "red" "" "A") = Some (EmptyFields 1)
  ∧ Validate (mkItem 1 "red" "circle" "") = Some (EmptyFields 1).
Proof. repeat split. Qed.

(** A tab, a no-break space (C2 A0) and a line feed count as white space; a
    lone continuation byte does not. *)
Example TrimSpace_bytes :
  strings.TrimSpace (String "009" (String "194" (String "160" ("red" +:+ String "010" ""))))
  = "red"
  ∧ strings.TrimSpace (String "160" " red ") = String "160" " red".
Proof. split; reflexivity. Qed.

Example Error_message :
  Error (InvalidItemAt 3 (EmptyFields 7))
  = "invalid item at index 3: item 7 has empty fields".
Proof. reflexivity. Qed.

Example scenario_A :
  main.groupItems (Filter (mkStore testItems) {["color" := "red"]}) "shape"
  = [ main.mkGroup "circle" "shape" [mkItem 1 "red" "circle" "A"];
      main.mkGroup "square" "shape" [mkItem 3 "red" "square" "B"] ].
Proof. reflexivity. Qed.

Example scenario_B :
  main.groupItems (Filter (mkStore testItems) ∅) "bogus"
  = [ main.mkGroup "All Items" "bogus" testItems ].
Proof. reflexivity. Qed.

Example scenario_C :
  Filter (mkStore testItems) {["color" := "purple"]} = []
  ∧ main.groupItems (Filter (mkStore testItems) {["color" := "purple"]}) "shape" = [].
Proof. split; reflexivity. Qed.

End tests.

(** ** Ordering of strings and sorting *)

Section sorting.

Lemma less_iff s1 s2 : sort.less s1 s2 ↔ String.le s1 s2 ∧ s1 ≠ s2.
Proof.
  unfold sort.less, String.le, String.ltb, String.leb.
  destruct (String.compare s1 s2) eqn:E; simpl.
  - apply String.compare_eq_iff in E. split; [done|]. by intros [_ ?].
  - split; [intros _; split; [done|] | done].
    intros ->. revert E. clear. induction s2 as [|a s IH]; simpl; [done|].
    unfold Ascii.compare. by rewrite N.compare_refl.
  - split; [done|]. by intros [? _].
Qed.

Lemma less_irrefl s : ¬ sort.less s s.
Proof. rewrite less_iff. tauto. Qed.

(** A list sorted by [≤] whose keys are pairwise distinct is strictly sorted. *)
Lemma StronglySorted_key_lt {A} (key : A → string) (l : list A) :
  StronglySorted (sort.key_le key) l → NoDup (key <$> l) →
  StronglySorted (sort.key_lt key) l.
Proof.
  induction 1 as [|x l Hl IH Hx]; intros Hnd; [constructor|].
  rewrite fmap_cons, NoDup_cons in Hnd. destruct Hnd as [Hnotin Hnd].
  constructor; [by apply IH|].
  rewrite Forall_forall in Hx |- *. intros y Hy.
  unfold sort.key_lt. apply less_iff. split; [by apply Hx|].
  intros Heq. apply Hnotin. rewrite Heq. by apply list_elem_of_fmap_2.
Qed.

Lemma StronglySorted_key_lt_NoDup {A} (key : A → string) (l : list A) :
  StronglySorted (sort.key_lt key) l → NoDup (key <$> l).
Proof.
  induction 1 as [|x l Hl IH Hx]; [constructor|].
  rewrite fmap_cons. constructor; [|done].
  intros (y & Heq & Hy)%list_elem_of_fmap.
  rewrite Forall_forall in Hx. specialize (Hx y Hy).
  unfold sort.key_lt in Hx. rewrite Heq in Hx. by apply less_irrefl in Hx.
Qed.

Lemma Slice_Permutation {A} (key : A → string) (l : list A) :
  sort.Slice key l ≡ₚ l.
Proof. apply merge_sort_Permutation. Qed.

Lemma Slice_sorted {A} (key : A → string) (l : list A) :
  StronglySorted (sort.key_le key) (sort.Slice key l).
Proof. apply StronglySorted_merge_sort; apply _. Qed.

Lemma Slice_strictly_sorted {A} (key : A → string) (l : list A) :
  NoDup (key <$> l) → StronglySorted (sort.key_lt key) (sort.Slice key l).
Proof.
  intros Hnd. apply StronglySorted_key_lt; [apply Slice_sorted|].
  by rewrite Slice_Permutation.
Qed.

(** With pairwise distinct keys there is one sorted permutation: whatever
    algorithm [sort.Slice] runs and whatever order its input is in, the
    outcome is the same. *)
Lemma sorted_permutation_unique {A} (key : A → string) (l1 l2 : list A) :
  NoDup (key <$> l1) → l1 ≡ₚ l2 →
  StronglySorted (sort.key_le key) l1 → StronglySorted (sort.key_le key) l2 →
  l1 = l2.
Proof.
  intros Hnd Hp H1 H2.
  apply (StronglySorted_unique_strong (sort.key_le key)); [|done..].
  intros x1 x2 Hx1 Hx2 H12 H21.
  assert (key x1 = key x2) as Hk.
  { apply (anti_symm String.le); assumption. }
  rewrite <- Hp in Hx2.
  apply list_elem_of_lookup in Hx1 as [i Hi], Hx2 as [j Hj].
  assert (i = j) as ->.
  { eapply NoDup_lookup; [exact Hnd| |]; rewrite list_lookup_fmap.
    - by rewrite Hi.
    - by rewrite Hj, Hk. }
  congruence.
Qed.

Lemma Slice_any_order {A} (key : A → string) (l1 l2 : list A) :
  NoDup (key <$> l1) → l1 ≡ₚ l2 → sort.Slice key l1 = sort.Slice key l2.
Proof.
  intros Hnd Hp. apply (sorted_permutation_unique key).
  - by rewrite Slice_Permutation.
  - by rewrite !Slice_Permutation.
  - apply Slice_sorted.
  - apply Slice_sorted.
Qed.

Lemma Strings_Permutation (l : list string) : sort.Strings l ≡ₚ l.
Proof. apply merge_sort_Permutation. Qed.

Lemma Strings_sorted (l : list string) : StronglySorted String.le (sort.Strings l).
Proof. apply StronglySorted_merge_sort; apply _. Qed.

Lemma Strings_strictly_sorted (l : list string) :
  NoDup l → StronglySorted sort.less (sort.Strings l).
Proof.
  intros Hnd.
  apply (StronglySorted_key_lt id).
  - apply Strings_sorted.
  - by rewrite list_fmap_id, Strings_Permutation.
Qed.

(** Every sorting algorithm agrees with [sort.Strings]. *)
Lemma Strings_any_algorithm (l l' : list string) :
  l' ≡ₚ l → StronglySorted String.le l' → l' = sort.Strings l.
Proof.
  intros Hp Hs. apply (StronglySorted_unique String.le); [done| |].
  - apply Strings_sorted.
  - by rewrite Strings_Permutation.
Qed.

End sorting.

(** ** The item store *)

Section store.

Import itemstore.

Lemma attribute_color item : attribute "color" item = Some (Color item).
Proof. done. Qed.

Lemma attribute_shape item : attribute "shape" item = Some (Shape item).
Proof. done. Qed.

Lemma attribute_category item : attribute "category" item = Some (Category item).
Proof. done. Qed.

Lemma attribute_unrecognized key item : ¬ recognized key → attribute key item = None.
Proof.
  unfold recognized, attribute, fields. intros Hk.
  rewrite !lookup_insert_ne by (intros <-; tauto). done.
Qed.

Lemma attribute_is_Some key item : is_Some (attribute key item) ↔ recognized key.
Proof.
  split.
  - intros Hs. destruct (decide (recognized key)) as [|Hn]; [done|].
    rewrite (attribute_unrecognized _ _ Hn) in Hs. by destruct Hs.
  - intros [->|[->| ->]]; eauto.
Qed.

(** The switches of [Filter] and [GetUniqueValues] read the attribute that
    the key names. *)
Lemma switch_property_attribute property item :
  switch_property property item = attribute property item.
Proof.
  unfold switch_property. repeat case_decide; subst; try done.
  symmetry. apply attribute_unrecognized. unfold recognized. tauto.
Qed.

Lemma filter_entry_recognized item key value :
  recognized key →
  filter_entry item (key, value) = bool_decide (attribute key item = Some value).
Proof.
  intros [->|[->| ->]]; unfold filter_entry;
    [rewrite attribute_color|rewrite attribute_shape|rewrite attribute_category];
    repeat case_decide; try done; apply bool_decide_ext; split; congruence.
Qed.

Lemma filter_entry_unrecognized item key value :
  ¬ recognized key → filter_entry item (key, value) = true.
Proof.
  unfold recognized. intros Hk. simpl. repeat case_decide; subst; tauto.
Qed.

(** The inner loop does not depend on the order in which the runtime visits
    the entries of [filters]. *)
Lemma matches_any_order item (l1 l2 : list (string * string)) :
  l1 ≡ₚ l2 → matches item l1 = matches item l2.
Proof.
  intros Hp. unfold matches. apply eq_true_iff_eq.
  rewrite !forallb_forall. setoid_rewrite <- list_elem_of_In.
  by setoid_rewrite Hp.
Qed.

Lemma matches_map_to_list item (filters : gmap string string) :
  matches item (map_to_list filters) = true ↔
  ∀ key value, filters !! key = Some value → filter_entry item (key, value) = true.
Proof.
  unfold matches. rewrite forallb_forall. setoid_rewrite <- list_elem_of_In.
  split.
  - intros H key value Hkv. apply H. by apply elem_of_map_to_list.
  - intros H [key value] Hkv. apply H. by apply elem_of_map_to_list.
Qed.

(** So [Filter] returns the same slice however the runtime orders each of
    its passes over [filters]. *)
Lemma Filter_any_range range s (filters : gmap string string) :
  (∀ i m, range i m ≡ₚ map_to_list m) →
  Filter_ranging range s filters = Filter s filters.
Proof.
  intros Hr. unfold Filter_ranging, Filter. case_decide; [done|].
  generalize 0%nat, (@nil Item).
  induction (items s) as [|item l IH]; intros i result; [done|].
  simpl. rewrite (matches_any_order item _ _ (Hr i filters)).
  by rewrite !IH.
Qed.

Lemma filter_loop_eq entries l result :
  filter_loop entries l result
  = result ++ filter (λ item, matches item entries = true) l.
Proof.
  revert result. induction l as [|item l IH]; intros result; simpl.
  - by rewrite app_nil_r.
  - rewrite filter_cons. destruct (matches item entries) eqn:E.
    + rewrite decide_True by done. rewrite IH. by rewrite <- app_assoc.
    + rewrite decide_False by done. apply IH.
Qed.

Lemma filter_Forall {A} (P : A → Prop) `{∀ x, Decision (P x)} (l : list A) :
  Forall P l → filter P l = l.
Proof.
  induction 1 as [|x l Hx Hl IH]; [done|].
  rewrite filter_cons_True by done. by rewrite IH.
Qed.

(** [Filter] keeps the records that pass every entry of [filters], in the
    order of the store. *)
Lemma Filter_eq s (filters : gmap string string) :
  Filter s filters
  = filter (λ item, map_Forall (λ key value,
                       filter_entry item (key, value) = true) filters)
      (items s).
Proof.
  unfold Filter. case_decide as Hsz.
  - apply map_size_empty_iff in Hsz as ->.
    symmetry. apply filter_Forall.
    apply Forall_forall. intros item _. apply map_Forall_empty.
  - rewrite filter_loop_eq. simpl.
    apply list_filter_iff. intros item. apply matches_map_to_list.
Qed.

(** C1.  For a non-empty filter set whose keys are all attribute keys,
    [Filter] returns exactly the records of the store that carry the required
    value at every key of the set, in the order of the store; a record of the
    store that is left out differs from the set on one of its entries. *)
Theorem Filter_returns_the_matching_records s (filters : gmap string string) :
  filters ≠ ∅ →
  (∀ key, key ∈ dom filters → recognized key) →
  Filter s filters = filter (meets filters) (items s)
  ∧ ∀ item, item ∈ items s → item ∉ Filter s filters →
      ∃ key value, filters !! key = Some value ∧ attribute key item ≠ Some value.
Proof.
  intros _ Hkeys.
  assert (Filter s filters = filter (meets filters) (items s)) as Heq.
  { rewrite Filter_eq. apply list_filter_iff. intros item.
    unfold meets. rewrite !map_Forall_lookup.
    split; intros H key value Hkv; specialize (H key value Hkv).
    - rewrite filter_entry_recognized in H; [by apply bool_decide_eq_true in H|].
      apply Hkeys, elem_of_dom. eauto.
    - rewrite filter_entry_recognized; [by apply bool_decide_eq_true|].
      apply Hkeys, elem_of_dom. eauto. }
  split; [done|].
  intros item Hin Hout. rewrite Heq, list_elem_of_filter in Hout.
  apply map_not_Forall; [apply _|]. tauto.
Qed.

Lemma Filter_returns_the_matching_records_witness :
  Filter (mkStore testItems) {["color" := "red"]}
  = filter (meets {["color" := "red"]}) testItems
  ∧ ∀ item, item ∈ testItems →
      item ∉ Filter (mkStore testItems) {["color" := "red"]} →
      ∃ key value, ({["color" := "red"]} : gmap string string) !! key = Some value
                   ∧ attribute key item ≠ Some value.
Proof.
  apply (Filter_returns_the_matching_records (mkStore testItems) {["color" := "red"]}).
  - intros Hempty. apply (f_equal (λ m : gmap string string, m !! "color")) in Hempty.
    vm_compute in Hempty. discriminate.
  - intros key Hkey. rewrite dom_singleton_L in Hkey.
    apply elem_of_singleton in Hkey as ->. by left.
Defined.

Lemma getPropertyGetter_unrecognized property :
  ¬ recognized property → main.getPropertyGetter property = None.
Proof.
  unfold recognized, main.getPropertyGetter. intros Hn.
  repeat case_decide; subst; tauto.
Qed.

(** The getter of a recognized key reads the attribute the key names. *)
Lemma getPropertyGetter_recognized property :
  recognized property →
  ∃ getter, main.getPropertyGetter property = Some getter
            ∧ ∀ item, attribute property item = Some (getter item).
Proof. intros [->|[->| ->]]; eexists; (split; [reflexivity|done]). Qed.

Lemma List_filter_bool_decide {A} (P : A → Prop) `{∀ x, Decision (P x)} (l : list A) :
  List.filter (λ x, bool_decide (P x)) l = filter P l.
Proof.
  induction l as [|x l IH]; [done|]. simpl. rewrite filter_cons, IH.
  by destruct (decide (P x)) as [HP|HP];
    [rewrite bool_decide_eq_true_2|rewrite bool_decide_eq_false_2].
Qed.

(** C2, as amended.  [Filter] of the store ignores an entry whose key is not
    an attribute key: it returns what it returns for the filter set cut down
    to the recognized keys.  The filter block of the [itemsHandler] that works
    on one [filterBy]/[filterValue] pair does not: it returns the records with
    that value when [filterBy] is an attribute key, and no record when it is
    not. *)
Theorem unrecognized_filter_keys s (filters : gmap string string) :
  Filter s filters = Filter s (filter (λ entry, recognized entry.1) filters)
  ∧ ∀ l filterBy filterValue,
      main.itemsHandler_filter l filterBy filterValue
      = if decide (filterBy = "" ∨ filterValue = "") then l
        else if decide (recognized filterBy)
             then filter (λ item, attribute filterBy item = Some filterValue) l
             else [].
Proof.
  split.
  - rewrite !Filter_eq. apply list_filter_iff. intros item.
    rewrite !map_Forall_lookup. split.
    + intros H key value [Hkv _]%map_lookup_filter_Some. by apply H.
    + intros H key value Hkv.
      destruct (decide (recognized key)) as [Hr|Hn].
      * apply H. by apply map_lookup_filter_Some.
      * by apply filter_entry_unrecognized.
  - intros l filterBy filterValue. unfold main.itemsHandler_filter.
    destruct (decide (filterBy = "" ∨ filterValue = "")) as [[->| ->]|Hne].
    + done.
    + by rewrite andb_false_r.
    + rewrite !bool_decide_eq_true_2 by tauto. simpl.
      destruct (decide (recognized filterBy)) as [Hr|Hn].
      * destruct (getPropertyGetter_recognized _ Hr) as (getter & -> & Hattr).
        rewrite List_filter_bool_decide. apply list_filter_iff.
        intros item. rewrite Hattr. split; congruence.
      * by rewrite getPropertyGetter_unrecognized.
Qed.

(** The claim C2 fails on that [itemsHandler]: with the filter [size=big],
    whose key is not an attribute key, no record of [testItems] is left, while
    without a filter all of them are. *)
Lemma itemsHandler_filter_unrecognized_key_excludes :
  ¬ recognized "size"
  ∧ main.itemsHandler_filter testItems "size" "big" = []
  ∧ main.itemsHandler_filter testItems "" "" = testItems.
Proof.
  split; [|split]; [|reflexivity..]. not_an_attribute_key.
Qed.

End store.

(** ** Construction of the store *)

Section construction.

Import itemstore.

Lemma TrimSpace_empty : strings.TrimSpace "" = "".
Proof. reflexivity. Qed.

Lemma TrimSpace_nonempty s : strings.TrimSpace s ≠ "" → s ≠ "".
Proof. intros H ->. by apply H. Qed.

Lemma Validate_None item : Validate item = None ↔ ¬ invalid item.
Proof.
  unfold Validate, invalid. simpl.
  repeat case_bool_decide; simpl; split; (done || tauto).
Qed.

Lemma Validate_Some item : invalid item → Validate item = Some (reason item).
Proof.
  unfold Validate, invalid, reason. simpl.
  repeat case_bool_decide; repeat case_decide; simpl; (done || tauto || lia).
Qed.

(** The loop of [New] passes exactly when every record is valid ... *)
Lemma validate_from_None n l :
  validate_from n l = None ↔ Forall (λ item, ¬ invalid item) l.
Proof.
  revert n. induction l as [|item l IH]; intros n; simpl.
  - split; [constructor|done].
  - rewrite Forall_cons, <- Validate_None.
    destruct (Validate item) as [err|]; [|rewrite IH]; [|tauto].
    split; [done|]. by intros [? _].
Qed.

(** ... and otherwise stops at the first record that is not. *)
Lemma validate_from_first n l i item :
  l !! i = Some item →
  invalid item →
  (∀ j item', (j < i)%nat → l !! j = Some item' → ¬ invalid item') →
  validate_from n l = Some (InvalidItemAt (n + i) (reason item)).
Proof.
  revert n i. induction l as [|x l IH]; intros n i Hi Hinv Hbefore; [done|].
  destruct i as [|i]; simpl in *.
  - simplify_eq. rewrite Validate_Some by done. by rewrite Nat.add_0_r.
  - assert (Validate x = None) as ->.
    { apply Validate_None. apply (Hbefore 0%nat); [lia|done]. }
    replace (n + S i)%nat with (S n + i)%nat by lia.
    apply IH; [done..|].
    intros j item' Hj Hl. apply (Hbefore (S j)); [lia|done].
Qed.

Lemma New_inr seed s :
  New seed = inr s → items s = seed ∧ Forall (λ item, ¬ invalid item) seed.
Proof.
  unfold New. destruct (validate_from 0 seed) eqn:E; [done|].
  intros [= <-]. split; [done|]. by apply validate_from_None in E.
Qed.

(** [New] succeeds on a seed of valid records, and only on those. *)
Lemma New_succeeds_iff seed :
  (∃ s, New seed = inr s) ↔ Forall (λ item, ¬ invalid item) seed.
Proof.
  split.
  - intros [s Hs]. by apply New_inr in Hs as [_ ?].
  - intros H%(validate_from_None 0). unfold New. rewrite H. eauto.
Qed.

(** C5, as amended.  Every record of a successfully constructed store has a
    positive id and a color, a shape and a category that are not empty and
    are not made of white space only (they stay non-empty when trimmed).
    The store holds the strings of the seed as they are: [Validate] trims its
    own copy, so a stored string may begin or end with white space. *)
Theorem New_records_are_valid seed s :
  New seed = inr s →
  items s = seed
  ∧ Forall (λ item,
      0 < ID item
      ∧ (Color item ≠ "" ∧ Shape item ≠ "" ∧ Category item ≠ "")
      ∧ (strings.TrimSpace (Color item) ≠ ""
         ∧ strings.TrimSpace (Shape item) ≠ ""
         ∧ strings.TrimSpace (Category item) ≠ "")) (items s).
Proof.
  intros [Hitems Hvalid]%New_inr. split; [done|]. rewrite Hitems.
  eapply Forall_impl; [exact Hvalid|]. intros item Hi. unfold invalid in Hi.
  assert (strings.TrimSpace (Color item) ≠ ""
          ∧ strings.TrimSpace (Shape item) ≠ ""
          ∧ strings.TrimSpace (Category item) ≠ "") as Ht by tauto.
  split; [lia|]. split; [|done].
  destruct Ht as (?&?&?). auto using TrimSpace_nonempty.
Qed.

Lemma New_records_are_valid_witness :
  items (mkStore testItems) = testItems
  ∧ Forall (λ item,
      0 < ID item
      ∧ (Color item ≠ "" ∧ Shape item ≠ "" ∧ Category item ≠ "")
      ∧ (strings.TrimSpace (Color item) ≠ ""
         ∧ strings.TrimSpace (Shape item) ≠ ""
         ∧ strings.TrimSpace (Category item) ≠ "")) (items (mkStore testItems)).
Proof.
  apply (New_records_are_valid testItems (mkStore testItems)).
  reflexivity.
Defined.

(** The claim C5 fails: [New] accepts a record whose color begins with a
    space and stores it with the space. *)
Lemma New_stores_untrimmed_strings :
  New [mkItem 1 " red" "circle" "A"] = inr (mkStore [mkItem 1 " red" "circle" "A"])
  ∧ ¬ trimmed (Color (mkItem 1 " red" "circle" "A")).
Proof.
  split; [reflexivity|]. unfold trimmed. simpl.
  change (strings.TrimSpace " red") with "red". discriminate.
Qed.

(** C6, as amended.  [New] does not compare ids: the store it constructs
    holds the records of the seed, so its ids are pairwise distinct exactly
    when those of the seed are. *)
Theorem New_ids_distinct_iff_seed_ids_distinct seed s :
  New seed = inr s →
  NoDup (ID <$> items s) ↔ NoDup (ID <$> seed).
Proof. intros [-> _]%New_inr. done. Qed.

Lemma New_ids_distinct_iff_seed_ids_distinct_witness :
  NoDup (ID <$> items (mkStore testItems)) ↔ NoDup (ID <$> testItems).
Proof.
  apply (New_ids_distinct_iff_seed_ids_distinct testItems (mkStore testItems)).
  reflexivity.
Defined.

(** The claim C6 fails: a seed with the id 1 twice is accepted. *)
Lemma New_accepts_duplicate_ids :
  New [mkItem 1 "red" "circle" "A"; mkItem 1 "blue" "square" "B"]
  = inr (mkStore [mkItem 1 "red" "circle" "A"; mkItem 1 "blue" "square" "B"])
  ∧ ¬ NoDup (ID <$> [mkItem 1 "red" "circle" "A"; mkItem 1 "blue" "square" "B"]).
Proof.
  split; [reflexivity|]. simpl. rewrite NoDup_cons.
  intros [Hnotin _]. apply Hnotin. by left.
Qed.

(** C7.  [New] validates the records in order.  At the first invalid one, at
    index [i], it returns no store but the error that wraps the reason, the
    invalid id or the empty fields, under the index [i]. *)
Theorem New_fails_at_the_first_invalid_record seed i item :
  seed !! i = Some item →
  invalid item →
  (∀ j item', (j < i)%nat → seed !! j = Some item' → ¬ invalid item') →
  New seed = inl (InvalidItemAt i (reason item))
  ∧ (ID item ≤ 0 → reason item = InvalidID (ID item))
  ∧ (0 < ID item → reason item = EmptyFields (ID item))
  ∧ Error (InvalidItemAt i (reason item))
    = "invalid item at index " +:+ strings.itoa (Z.of_nat i) +:+ ": "
      +:+ Error (reason item).
Proof.
  intros Hi Hinv Hbefore. split; [|split; [|split]].
  - unfold New. by rewrite (validate_from_first 0 seed i item).
  - intros Hid. unfold reason. by rewrite decide_True.
  - intros Hid. unfold reason. rewrite decide_False; [done|lia].
  - reflexivity.
Qed.

(** The seed with the record [{id: 0, color: red, shape: circle, category: A}]
    at index 0. *)
Lemma New_fails_at_the_first_invalid_record_witness :
  New [mkItem 0 "red" "circle" "A"] = inl (InvalidItemAt 0 (InvalidID 0))
  ∧ Error (InvalidItemAt 0 (InvalidID 0))
    = "invalid item at index 0: invalid item ID: 0".
Proof.
  destruct (New_fails_at_the_first_invalid_record
              [mkItem 0 "red" "circle" "A"] 0 (mkItem 0 "red" "circle" "A"))
    as (Hnew & _ & _ & Hmsg).
  - reflexivity.
  - left. simpl. lia.
  - intros j item' Hj. lia.
  - split; [exact Hnew|reflexivity].
Defined.

End construction.

(** ** Distinct values *)

Section distinct_values.

Import itemstore.

(** The loop keeps [result] free of duplicates, with [values] as its set of
    elements, and adds the value of each item it has not seen. *)
Lemma unique_loop_spec property l (values : gset string) result :
  NoDup result →
  (∀ value, value ∈ values ↔ value ∈ result) →
  NoDup (unique_loop property l values result)
  ∧ ∀ value, value ∈ unique_loop property l values result ↔
      value ∈ result ∨ ∃ item, item ∈ l ∧ switch_property property item = Some value.
Proof.
  revert values result.
  induction l as [|item l IH]; intros values result Hnd Hvalues; simpl.
  - split; [done|]. intros value. split; [by left|].
    intros [?|(item & Hin & _)]; [done|]. by apply not_elem_of_nil in Hin.
  - destruct (switch_property property item) as [v|] eqn:Hv.
    + destruct (decide (v ∈ values)) as [Hseen|Hnew].
      * destruct (IH values result Hnd Hvalues) as [Hnd' Hin'].
        split; [done|]. intros value. rewrite Hin'. split.
        -- intros [?|(x & Hx & Hxv)]; [by left|].
           right. exists x. split; [by right|done].
        -- intros [?|(x & Hx & Hxv)]; [by left|].
           apply elem_of_cons in Hx as [->|Hx].
           ++ left. apply Hvalues. congruence.
           ++ right. eauto.
      * destruct (IH ({[v]} ∪ values) (result ++ [v])) as [Hnd' Hin'].
        { apply NoDup_app. split; [done|]. split; [|apply NoDup_singleton].
          intros x Hx ->%list_elem_of_singleton. apply Hnew. by apply Hvalues. }
        { intros value. rewrite elem_of_union, elem_of_singleton, elem_of_app,
            list_elem_of_singleton, Hvalues. tauto. }
        split; [done|]. intros value. rewrite Hin', elem_of_app, list_elem_of_singleton.
        split.
        -- intros [[?| ->]|(x & Hx & Hxv)].
           ++ by left.
           ++ right. exists item. split; [by left|done].
           ++ right. exists x. split; [by right|done].
        -- intros [?|(x & Hx & Hxv)]; [by left; left|].
           apply elem_of_cons in Hx as [->|Hx].
           ++ left. right. congruence.
           ++ right. eauto.
    + destruct (IH values result Hnd Hvalues) as [Hnd' Hin'].
      split; [done|]. intros value. rewrite Hin'. split.
      * intros [?|(x & Hx & Hxv)]; [by left|].
        right. exists x. split; [by right|done].
      * intros [?|(x & Hx & Hxv)]; [by left|].
        apply elem_of_cons in Hx as [->|Hx]; [congruence|eauto].
Qed.

(** With a property that is not an attribute key every item is skipped. *)
Lemma unique_loop_unrecognized property l values result :
  ¬ recognized property → unique_loop property l values result = result.
Proof.
  intros Hn. induction l as [|item l IH]; simpl; [done|].
  rewrite switch_property_attribute, attribute_unrecognized by done. exact IH.
Qed.

(** C8.  [GetUniqueValues] returns a strictly ascending list, hence one
    without duplicates, whose set of elements is the set of values that the
    attribute takes on the records of the store; for a key that is not an
    attribute key that set is empty and it returns the empty list. *)
Theorem GetUniqueValues_sorted_distinct_values s property :
  StronglySorted sort.less (GetUniqueValues s property)
  ∧ NoDup (GetUniqueValues s property)
  ∧ list_to_set (GetUniqueValues s property) = values property (items s)
  ∧ (¬ recognized property → GetUniqueValues s property = []).
Proof.
  unfold GetUniqueValues.
  destruct (unique_loop_spec property (items s) ∅ []) as [Hnd Hin].
  { constructor. }
  { intros value. rewrite elem_of_empty. split; [done|].
    by intros ?%not_elem_of_nil. }
  split; [by apply Strings_strictly_sorted|].
  split; [by rewrite Strings_Permutation|].
  split.
  - apply set_eq. intros value. unfold values.
    rewrite !elem_of_list_to_set, list_elem_of_omap, Strings_Permutation, Hin.
    setoid_rewrite switch_property_attribute. split; [|by right].
    intros [?%not_elem_of_nil|?]; done.
  - intros Hn. by rewrite unique_loop_unrecognized.
Qed.

Lemma GetUniqueValues_sorted_distinct_values_witness :
  GetUniqueValues (mkStore testItems) "color" = ["blue"; "green"; "red"]
  ∧ GetUniqueValues (mkStore testItems) "invalid" = [].
Proof.
  split; [reflexivity|].
  apply (GetUniqueValues_sorted_distinct_values (mkStore testItems) "invalid").
  not_an_attribute_key.
Defined.

End distinct_values.

(** ** The slice that [Filter] returns *)

Section sharing.

Import mem.

Lemma array_insert (h : heap) a l : array (<[a := l]> h) a = l.
Proof. unfold array. by rewrite lookup_insert_eq. Qed.

Lemma array_insert_ne (h : heap) a b l : a ≠ b → array (<[a := l]> h) b = array h b.
Proof. intros Hne. unfold array. by rewrite lookup_insert_ne. Qed.

Lemma length_contents (h : heap) s : valid h s → length (contents h s) = len s.
Proof.
  destruct s as [|a off n]; simpl; [done|]. intros [_ Hlen].
  rewrite length_take, length_drop. lia.
Qed.

(** Writing to an array that the heap did not hold leaves the slices of the
    heap as they were. *)
Lemma contents_insert_fresh (h : heap) s a l :
  valid h s → a ∉ dom h → contents (<[a := l]> h) s = contents h s.
Proof.
  destruct s as [|b off n]; simpl; [done|]. intros [Hb _] Ha.
  rewrite array_insert_ne; [done|]. by intros ->.
Qed.

Lemma valid_insert_fresh (h : heap) s a l :
  valid h s → a ∉ dom h → valid (<[a := l]> h) s.
Proof.
  destruct s as [|b off n]; simpl; [done|]. intros [Hb Hlen] Ha.
  rewrite array_insert_ne by (by intros ->).
  split; [|done]. rewrite dom_insert_L. apply elem_of_union. by right.
Qed.

Lemma New_shares_the_seed seed (h : heap) s : New seed h = inr s → items s = seed.
Proof.
  unfold New. destruct (itemstore.validate_from 0 (contents h seed)); [done|].
  by intros [= <-].
Qed.

(** What [make] and [copy] leave in the heap when the filter set is empty:
    one more array, with the elements of the store. *)
Lemma Filter_empty_eq (h : heap) seed (filters : gmap string string) :
  valid h seed →
  size filters = 0%nat →
  Filter (mkStore seed) filters h
  = (Slice (fresh (dom h)) 0 (len seed), <[fresh (dom h) := contents h seed]> h).
Proof.
  intros Hvalid Hsize. unfold Filter. rewrite decide_True by done. simpl.
  set (a := fresh (dom h)). set (n := len seed).
  assert (a ∉ dom h) as Hfresh by apply is_fresh.
  assert (length (contents h seed) = n) as Hlen by by apply length_contents.
  rewrite array_insert, insert_insert_eq, contents_insert_fresh by done.
  rewrite length_take, Hlen, Nat.min_id.
  rewrite drop_ge by (by rewrite length_replicate).
  rewrite app_nil_r, take_ge by lia. done.
Qed.

(** C9.  With an empty filter set [Filter] returns a slice with the elements
    of the seed, as many and in the same order, on a backing array of its own:
    the call changes no array the heap held, and a write through the result
    changes neither the store's sequence nor the seed. *)
Theorem Filter_empty_returns_a_copy (h : heap) seed s (filters : gmap string string) :
  valid h seed →
  New seed h = inr s →
  size filters = 0%nat →
  contents (Filter s filters h).2 (Filter s filters h).1 = contents h seed
  ∧ (∃ a, (Filter s filters h).1 = Slice a 0 (length (contents h seed)) ∧ a ∉ dom h)
  ∧ (∀ a, a ∈ dom h → (Filter s filters h).2 !! a = h !! a)
  ∧ (∀ i x h', store (Filter s filters h).1 i x (Filter s filters h).2 = Some h' →
       contents h' (Filter s filters h).1 !! i = Some x
       ∧ contents h' (items s) = contents h seed).
Proof.
  intros Hvalid Hnew Hsize. apply New_shares_the_seed in Hnew.
  destruct s as [sl]. simpl in Hnew. subst sl.
  rewrite Filter_empty_eq by done. simpl.
  set (a := fresh (dom h)).
  assert (a ∉ dom h) as Hfresh by apply is_fresh.
  assert (length (contents h seed) = len seed) as Hlen by by apply length_contents.
  split; [|split; [|split]].
  - rewrite array_insert, drop_0, take_ge by lia. done.
  - exists a. by rewrite Hlen.
  - intros b Hb. rewrite lookup_insert_ne; [done|]. by intros ->.
  - intros i x h'. case_decide as Hi; [|done]. intros [= <-].
    rewrite array_insert, insert_insert_eq. split.
    + rewrite array_insert, drop_0, lookup_take_lt by done.
      apply list_lookup_insert_eq. lia.
    + by apply contents_insert_fresh.
Qed.

Lemma Filter_empty_returns_a_copy_witness :
  contents (Filter (mkStore testSeed) ∅ testHeap).2
           (Filter (mkStore testSeed) ∅ testHeap).1
  = itemstore.testItems.
Proof.
  destruct (Filter_empty_returns_a_copy testHeap testSeed (mkStore testSeed) ∅)
    as [Hcopy _].
  - split; [|vm_compute; lia]. apply elem_of_dom. eexists. reflexivity.
  - reflexivity.
  - reflexivity.
  - exact Hcopy.
Defined.

(** [append] adds the element at the end of the slice ... *)
Lemma append_spec (h : heap) s x :
  valid h s →
  valid (append s x h).2 (append s x h).1
  ∧ contents (append s x h).2 (append s x h).1 = contents h s ++ [x].
Proof.
  destruct s as [|a off n]; simpl.
  - intros _. rewrite array_insert, dom_insert_L. simpl.
    split; [split; [apply elem_of_union_l, elem_of_singleton_2; done|lia]|done].
  - intros [Ha Hlen]. case_decide as Hroom; simpl.
    + rewrite array_insert, length_insert, dom_insert_L.
      split; [split; [apply elem_of_union_l, elem_of_singleton_2; done|lia]|].
      rewrite drop_insert_ge by lia. replace (off + n - off)%nat with n by lia.
      assert (n < length (drop off (array h a)))%nat as Hn
        by (rewrite length_drop; lia).
      rewrite (take_S_r _ _ x) by (by apply list_lookup_insert_eq).
      by rewrite take_insert_ge.
    + rewrite array_insert, dom_insert_L, length_app. simpl.
      assert (length (take n (drop off (array h a))) = n) as Hn
        by (rewrite length_take, length_drop; lia).
      rewrite length_replicate, Hn.
      split; [split; [apply elem_of_union_l, elem_of_singleton_2; done|lia]|].
      replace (S n) with (n + 1)%nat by lia.
      by rewrite drop_0, take_app_add' by done.
Qed.

(** ... and leaves alone the valid slices on other arrays. *)
Lemma append_frame (h : heap) s t x :
  valid h s → valid h t → apart s t →
  valid (append s x h).2 t
  ∧ contents (append s x h).2 t = contents h t
  ∧ apart (append s x h).1 t.
Proof.
  intros Hs Ht Hst.
  assert (fresh (dom h) ∉ dom h) as Hfresh by apply is_fresh.
  assert (apart (Slice (fresh (dom h)) 0 (S (len s))) t) as Hnew.
  { destruct t as [|b ? ?]; [done|]. simpl. destruct Ht as [Hb _]. congruence. }
  destruct s as [|a off n]; simpl.
  - by auto using valid_insert_fresh, contents_insert_fresh.
  - case_decide as Hroom; simpl.
    + destruct t as [|b off' n']; [done|]. simpl in *.
      rewrite array_insert_ne, dom_insert_L by done.
      split; [split; [apply elem_of_union; tauto|tauto]|done].
    + by auto using valid_insert_fresh, contents_insert_fresh.
Qed.

Lemma filter_loop_spec entries l (h : heap) result t :
  valid h result → valid h t → apart result t →
  contents (filter_loop entries l result h).2 (filter_loop entries l result h).1
  = itemstore.filter_loop entries l (contents h result)
  ∧ contents (filter_loop entries l result h).2 t = contents h t.
Proof.
  revert h result. induction l as [|item l IH]; intros h result Hr Ht Hrt; simpl.
  - done.
  - destruct (itemstore.matches item entries); [|by apply IH].
    destruct (append_spec h result item Hr) as [Hr' Hc'].
    destruct (append_frame h result t item Hr Ht Hrt) as (Ht' & Hct' & Hrt').
    destruct (append result item h) as [result' h']. simpl in *.
    destruct (IH h' result' Hr' Ht' Hrt') as [IH1 IH2].
    by rewrite IH1, IH2, Hc', Hct'.
Qed.

(** The list-level [itemstore.Filter] gives the contents of the slice that
    [Filter] returns, whatever the filter set, and the call leaves the store's
    sequence as it was. *)
Lemma Filter_refines (h : heap) s (filters : gmap string string) :
  valid h (items s) →
  contents (Filter s filters h).2 (Filter s filters h).1
  = itemstore.Filter (itemstore.mkStore (contents h (items s))) filters
  ∧ contents (Filter s filters h).2 (items s) = contents h (items s).
Proof.
  intros Hvalid. destruct s as [seed]. simpl in Hvalid.
  destruct (decide (size filters = 0%nat)) as [Hsize|Hsize].
  - rewrite Filter_empty_eq by done.
    unfold itemstore.Filter. rewrite decide_True by done. simpl.
    assert (length (contents h seed) = len seed) as Hlen by by apply length_contents.
    rewrite array_insert, drop_0, take_ge by lia.
    split; [done|]. apply contents_insert_fresh; [done|apply is_fresh].
  - unfold Filter, itemstore.Filter. rewrite !decide_False by done. simpl.
    by apply (filter_loop_spec _ _ h nil seed).
Qed.

End sharing.

(** ** Grouping *)

Section grouping.

Import itemstore main.

Lemma values_getter key getter l :
  (∀ item, attribute key item = Some (getter item)) →
  values key l = list_to_set (getter <$> l).
Proof.
  intros Hg. unfold values. f_equal.
  induction l as [|item l IH]; [done|]. csimpl. rewrite Hg. simpl. by rewrite IH.
Qed.

Lemma filter_nil_not_in {A} (f : A → string) (l : list A) k :
  k ∉ f <$> l → filter (λ x, f x = k) l = [].
Proof.
  induction l as [|x l IH]; [done|]. rewrite fmap_cons, not_elem_of_cons.
  intros [Hne Hl]. rewrite filter_cons_False by done. by apply IH.
Qed.

(** The map after the first loop: under each value that occurs, the records
    with that value, in the order of the input, after what the map held. *)
Lemma group_loop_lookup getter l (m : gmap string (list Item)) k :
  group_loop getter l m !! k
  = if decide (k ∈ getter <$> l)
    then Some (default [] (m !! k) ++ filter (λ item, getter item = k) l)
    else m !! k.
Proof.
  revert m. induction l as [|item l IH]; intros m.
  - done.
  - cbn [group_loop]. rewrite fmap_cons.
    rewrite IH. destruct (decide (k = getter item)) as [->|Hne].
    + rewrite lookup_insert_eq, (decide_True (P := _ ∈ _ :: _)) by by left.
      rewrite filter_cons_True by done. simpl.
      case_decide as Hin.
      * by rewrite <- app_assoc.
      * by rewrite filter_nil_not_in.
    + rewrite lookup_insert_ne by done.
      rewrite filter_cons_False by done.
      apply decide_ext. rewrite elem_of_cons. tauto.
Qed.

Lemma group_loop_empty_lookup getter l k members :
  group_loop getter l ∅ !! k = Some members ↔
  k ∈ getter <$> l ∧ members = filter (λ item, getter item = k) l.
Proof.
  rewrite group_loop_lookup, lookup_empty. simpl.
  case_decide; [|split; [done|tauto]].
  split; [by intros [= <-]|by intros [_ ->]].
Qed.

Lemma group_loop_dom getter l :
  dom (group_loop getter l ∅) = list_to_set (getter <$> l).
Proof.
  apply set_eq. intros k. rewrite elem_of_dom, elem_of_list_to_set.
  unfold is_Some. setoid_rewrite group_loop_empty_lookup.
  split; [by intros (? & ? & _)|eauto].
Qed.

(** Each bucket is non-empty and holds the records of its value. *)
Lemma group_loop_bucket getter l k members :
  group_loop getter l ∅ !! k = Some members →
  members ≠ []
  ∧ members = filter (λ item, getter item = k) l
  ∧ Forall (λ item, getter item = k) members.
Proof.
  intros [Hk ->]%group_loop_empty_lookup.
  apply list_elem_of_fmap in Hk as (item & -> & Hin).
  split; [|split; [done|]].
  - intros Hnil. apply (filter_nil_not_elem_of _ _ item) in Hnil; done.
  - apply Forall_forall. by intros x [? _]%list_elem_of_filter.
Qed.

Lemma collect_keys groupBy visited : GroupName <$> collect groupBy visited = visited.*1.
Proof. unfold collect. rewrite <- list_fmap_compose. done. Qed.

Lemma collect_entries groupBy (visited : list (string * list Item)) :
  (λ g, (GroupName g, Items g)) <$> collect groupBy visited = visited.
Proof. induction visited as [|[] ? IH]; simpl; [done|]. by f_equal. Qed.

Lemma collect_Permutation groupBy v1 v2 :
  v1 ≡ₚ v2 → collect groupBy v1 ≡ₚ collect groupBy v2.
Proof. intros Hp. unfold collect. by rewrite Hp. Qed.

(** The map that the store-based [groupItems] returns for a recognized key is
    the map that the first loop of the other [groupItems] builds. *)
Lemma main_store_groupItems_recognized l groupBy getter :
  getPropertyGetter groupBy = Some getter →
  main_store.groupItems l groupBy = group_loop getter l ∅.
Proof.
  unfold main_store.groupItems, getPropertyGetter.
  repeat case_decide; intros; by simplify_eq.
Qed.

(** The slice-returning [groupItems] lists the entries of that map by key. *)
Lemma groupItems_of_main_store_groupItems l groupBy :
  recognized groupBy →
  groupItems l groupBy
  = sort.Slice GroupName
      (collect groupBy (map_to_list (main_store.groupItems l groupBy))).
Proof.
  intros (getter & Hg & _)%getPropertyGetter_recognized.
  rewrite (main_store_groupItems_recognized _ _ _ Hg).
  unfold groupItems, groupItems_ranging. by rewrite Hg.
Qed.

(** What follows holds for every order in which [range] may visit a map. *)
Section any_range.

Variable range : gmap string (list Item) → list (string * list Item).
Hypothesis range_visits_each_entry_once : map_range range.

Lemma range_keys_NoDup (m : gmap string (list Item)) : NoDup (range m).*1.
Proof. rewrite (range_visits_each_entry_once m). apply NoDup_fst_map_to_list. Qed.

(** The groups do not depend on the order in which the map is visited. *)
Lemma groupItems_any_range l groupBy :
  groupItems_ranging range l groupBy = groupItems l groupBy.
Proof.
  unfold groupItems, groupItems_ranging.
  destruct (getPropertyGetter groupBy) as [getter|]; [|done].
  apply Slice_any_order.
  - rewrite collect_keys. apply range_keys_NoDup.
  - apply collect_Permutation, range_visits_each_entry_once.
Qed.

(** The groups of a recognized key are the entries of the map. *)
Lemma elem_of_groupItems l groupBy getter g :
  getPropertyGetter groupBy = Some getter →
  g ∈ groupItems_ranging range l groupBy ↔
  Property g = groupBy ∧ group_loop getter l ∅ !! GroupName g = Some (Items g).
Proof.
  intros Hg. unfold groupItems_ranging. rewrite Hg.
  rewrite Slice_Permutation. unfold collect. rewrite list_elem_of_fmap.
  setoid_rewrite (range_visits_each_entry_once _). split.
  - intros ([k members] & -> & Hin). simpl. by apply elem_of_map_to_list in Hin.
  - intros [Hp Hl]. exists (GroupName g, Items g). destruct g. simpl in *.
    split; [by subst|]. by apply elem_of_map_to_list.
Qed.

(** C3, as amended.  Whatever the order in which the runtime visits the
    map, the groups that the slice-returning [groupItems] returns are in
    strictly increasing order of their keys under the byte-wise order of
    strings, so no two groups share a key, and they are the same list on
    every run.  The [groupItems] that returns the map instead of a slice
    returns no sequence: its keys are distinct in whatever order they are
    visited, and for a recognized group-by key its entries are the groups of
    the slice-returning one, which lists them by key. *)
Theorem groupItems_sorted_by_key l groupBy :
  StronglySorted (sort.key_lt GroupName) (groupItems_ranging range l groupBy)
  ∧ NoDup (GroupName <$> groupItems_ranging range l groupBy)
  ∧ groupItems_ranging range l groupBy = groupItems l groupBy
  ∧ NoDup (range (main_store.groupItems l groupBy)).*1
  ∧ (recognized groupBy →
     (λ g, (GroupName g, Items g)) <$> groupItems_ranging range l groupBy
     ≡ₚ map_to_list (main_store.groupItems l groupBy)).
Proof.
  assert (StronglySorted (sort.key_lt GroupName) (groupItems_ranging range l groupBy))
    as Hsorted.
  { unfold groupItems_ranging.
    destruct (getPropertyGetter groupBy) as [getter|].
    - apply Slice_strictly_sorted. rewrite collect_keys. apply range_keys_NoDup.
    - repeat constructor. }
  split; [done|]. split; [by apply StronglySorted_key_lt_NoDup|].
  split; [apply groupItems_any_range|]. split; [apply range_keys_NoDup|].
  intros (getter & Hg & _)%getPropertyGetter_recognized.
  rewrite (main_store_groupItems_recognized _ _ _ Hg).
  unfold groupItems_ranging. rewrite Hg.
  by rewrite Slice_Permutation, collect_entries, (range_visits_each_entry_once _).
Qed.

(** C10, as amended.  For a recognized group-by key, every group is
    non-empty and holds, in the order of the input, the records whose
    attribute is the key of the group; there are as many groups as the
    attribute takes values on the input, and the keys of the groups are those
    values.  So a group with the key ["All Items"] appears exactly when a
    record has that very value.  The same holds of the entries of the map that
    the other [groupItems] returns. *)
Theorem groupItems_recognized_key l groupBy :
  recognized groupBy →
  Forall (λ g,
      Items g ≠ []
      ∧ Items g = filter (λ item, attribute groupBy item = Some (GroupName g)) l)
    (groupItems_ranging range l groupBy)
  ∧ length (groupItems_ranging range l groupBy) = size (values groupBy l)
  ∧ list_to_set (GroupName <$> groupItems_ranging range l groupBy) = values groupBy l
  ∧ map_Forall (λ key members,
        members ≠ []
        ∧ members = filter (λ item, attribute groupBy item = Some key) l)
      (main_store.groupItems l groupBy)
  ∧ size (main_store.groupItems l groupBy) = size (values groupBy l)
  ∧ dom (main_store.groupItems l groupBy) = values groupBy l.
Proof.
  intros Hrec.
  destruct (getPropertyGetter_recognized _ Hrec) as (getter & Hg & Hattr).
  rewrite (main_store_groupItems_recognized _ _ _ Hg).
  assert (∀ key members, group_loop getter l ∅ !! key = Some members →
            members ≠ []
            ∧ members = filter (λ item, attribute groupBy item = Some key) l)
    as Hbucket.
  { intros key members (Hne & -> & _)%group_loop_bucket. split; [done|].
    apply list_filter_iff. intros item. rewrite Hattr.
    split; [by intros ->|by intros [= ->]]. }
  assert (length (groupItems_ranging range l groupBy) = size (group_loop getter l ∅))
    as Hlen.
  { unfold groupItems_ranging. rewrite Hg, Slice_Permutation. unfold collect.
    by rewrite length_fmap, (range_visits_each_entry_once _), length_map_to_list. }
  rewrite (values_getter _ _ _ Hattr), <- group_loop_dom.
  split; [|split; [|split; [|split; [|split]]]].
  - apply Forall_forall. intros g [_ Hl]%(elem_of_groupItems _ _ getter); [|done].
    by apply Hbucket.
  - by rewrite Hlen, size_dom.
  - unfold groupItems_ranging.
    rewrite Hg, Slice_Permutation, collect_keys, (range_visits_each_entry_once _).
    apply set_eq. intros k. rewrite elem_of_list_to_set, elem_of_dom.
    rewrite list_elem_of_fmap. split.
    + intros ([k' members] & -> & Hin%elem_of_map_to_list). eauto.
    + intros [members Hl]. exists (k, members). split; [done|].
      by apply elem_of_map_to_list.
  - exact Hbucket.
  - by rewrite size_dom.
  - done.
Qed.

End any_range.

(** The runtime may as well visit the map backwards. *)
Lemma groupItems_sorted_by_key_witness :
  groupItems_ranging (λ m, reverse (map_to_list m)) testItems "color"
  = [ mkGroup "blue" "color" [mkItem 2 "blue" "square" "A"];
      mkGroup "green" "color" [mkItem 4 "green" "circle" "B"];
      mkGroup "red" "color" [mkItem 1 "red" "circle" "A"; mkItem 3 "red" "square" "B"] ].
Proof.
  destruct (groupItems_sorted_by_key (λ m, reverse (map_to_list m))) with
    (l := testItems) (groupBy := "color") as (_ & _ & -> & _).
  - intros m. apply reverse_Permutation.
  - reflexivity.
Defined.

(** The claim C3 fails on the [groupItems] that returns a map: grouped by
    shape, the records of [sampleItems] come back under the keys ["circle"],
    ["square"] and ["triangle"] of a map, and a [range] over it may visit
    them as square, circle, triangle, or as triangle, circle, square, neither
    of which is in increasing order. *)
Lemma main_store_groupItems_is_not_sorted :
  map_range map_to_list
  ∧ map_range (λ m, reverse (map_to_list m))
  ∧ (map_to_list (main_store.groupItems main_store.sampleItems "shape")).*1
    = ["square"; "circle"; "triangle"]
  ∧ (reverse (map_to_list (main_store.groupItems main_store.sampleItems "shape"))).*1
    = ["triangle"; "circle"; "square"]
  ∧ ¬ StronglySorted sort.less
        (map_to_list (main_store.groupItems main_store.sampleItems "shape")).*1
  ∧ ¬ StronglySorted sort.less
        (reverse (map_to_list (main_store.groupItems main_store.sampleItems "shape"))).*1.
Proof.
  split; [by intros m|]. split; [intros m; apply reverse_Permutation|].
  assert ((map_to_list (main_store.groupItems main_store.sampleItems "shape")).*1
          = ["square"; "circle"; "triangle"]) as Hkeys by (vm_compute; reflexivity).
  assert ((reverse (map_to_list (main_store.groupItems main_store.sampleItems "shape"))).*1
          = ["triangle"; "circle"; "square"]) as Hrev by (vm_compute; reflexivity).
  split; [done|]. split; [done|]. rewrite Hkeys, Hrev.
  split; intros Hs; apply StronglySorted_inv in Hs as [_ Hall];
    apply Forall_inv in Hall; discriminate Hall.
Qed.

Lemma groupItems_recognized_key_witness :
  length (groupItems testItems "shape") = size (values "shape" testItems)
  ∧ dom (main_store.groupItems testItems "shape") = values "shape" testItems.
Proof.
  destruct (groupItems_recognized_key map_to_list) with
    (l := testItems) (groupBy := "shape") as (_ & Hlen & _ & _ & _ & Hdom).
  - intros m. reflexivity.
  - right. left. reflexivity.
  - split; [exact Hlen|exact Hdom].
Defined.

(** The claim C10 fails in its last part: grouped by color, records whose
    color is ["All Items"] come back as the one group ["All Items"], as they
    would for a key that is not recognized. *)
Lemma groupItems_All_Items_key_for_recognized_key :
  recognized "color"
  ∧ groupItems [mkItem 1 "All Items" "circle" "A"] "color"
    = [ mkGroup "All Items" "color" [mkItem 1 "All Items" "circle" "A"] ].
Proof. split; [by left|reflexivity]. Qed.

(** C4, as amended.  For a group-by string that is not an attribute key, the
    [groupItems] that returns a slice returns one group, with the key
    ["All Items"] and all the records it was given, in their order; the
    [groupItems] that returns a map returns one entry with all the records,
    under the key ["All"]. *)
Theorem groupItems_unrecognized_key range l groupBy :
  ¬ recognized groupBy →
  groupItems_ranging range l groupBy = [ mkGroup "All Items" groupBy l ]
  ∧ main_store.groupItems l groupBy = {[ "All" := l ]}.
Proof.
  intros Hn. split.
  - unfold groupItems_ranging. by rewrite getPropertyGetter_unrecognized.
  - unfold main_store.groupItems, recognized in *.
    repeat case_decide; subst; tauto.
Qed.

Lemma groupItems_unrecognized_key_witness :
  groupItems testItems "bogus" = [ mkGroup "All Items" "bogus" testItems ]
  ∧ main_store.groupItems testItems "bogus" = {[ "All" := testItems ]}.
Proof.
  apply (groupItems_unrecognized_key map_to_list testItems "bogus").
  not_an_attribute_key.
Defined.

(** The claim C4 fails on the [groupItems] that returns a map: its one entry
    is under ["All"], and there is none under ["All Items"]. *)
Lemma main_store_groupItems_sentinel_is_All :
  ¬ recognized "bogus"
  ∧ main_store.groupItems testItems "bogus" !! "All Items" = None
  ∧ main_store.groupItems testItems "bogus" !! "All" = Some testItems.
Proof. split; [|split]; [|reflexivity..]. not_an_attribute_key. Qed.

End grouping.

(** * Further properties of the code *)

(** ** Errors of [New] and the algebra of [Filter] *)

Section store_more.

Import itemstore.

Lemma validate_from_Some n l err :
  validate_from n l = Some err →
  ∃ i item, l !! i = Some item ∧ invalid item
    ∧ (∀ j item', (j < i)%nat → l !! j = Some item' → ¬ invalid item')
    ∧ err = InvalidItemAt (n + i) (reason item).
Proof.
  revert n. induction l as [|x l IH]; intros n; simpl; [done|].
  destruct (decide (invalid x)) as [Hx|Hx].
  - rewrite Validate_Some by done. intros [= <-].
    exists 0%nat, x. split; [done|]. split; [done|].
    split; [intros j item' Hj; lia|]. by rewrite Nat.add_0_r.
  - apply Validate_None in Hx as Hv. rewrite Hv.
    intros (i & item & Hi & Hinv & Hbefore & ->)%IH.
    exists (S i), item. split; [done|]. split; [done|]. split.
    + intros [|j] item' Hj; simpl; [by intros [= <-]|].
      apply Hbefore. lia.
    + f_equal. lia.
Qed.

(** X1.  An error of [New] always points at a record of the seed: the index
    it carries is that of the first invalid record, and the cause is the
    reason [Validate] gives for that record. *)
Theorem New_error_points_at_the_first_invalid_record seed err :
  New seed = inl err →
  ∃ i item, seed !! i = Some item
    ∧ invalid item
    ∧ (∀ j item', (j < i)%nat → seed !! j = Some item' → ¬ invalid item')
    ∧ err = InvalidItemAt i (reason item).
Proof.
  unfold New. destruct (validate_from 0 seed) as [e|] eqn:E; [|done].
  intros [= <-]. by apply validate_from_Some in E.
Qed.

Lemma New_error_points_at_the_first_invalid_record_witness :
  ∃ i item,
    [mkItem 1 "red" "circle" "A"; mkItem 2 "blue" " " "A"] !! i = Some item
    ∧ invalid item
    ∧ (∀ j item', (j < i)%nat →
         [mkItem 1 "red" "circle" "A"; mkItem 2 "blue" " " "A"] !! j = Some item' →
         ¬ invalid item')
    ∧ InvalidItemAt 1 (EmptyFields 2) = InvalidItemAt i (reason item).
Proof.
  apply (New_error_points_at_the_first_invalid_record
           [mkItem 1 "red" "circle" "A"; mkItem 2 "blue" " " "A"]).
  reflexivity.
Defined.

Lemma filter_sublist_impl {A} (P Q : A → Prop)
    `{∀ x, Decision (P x)} `{∀ x, Decision (Q x)} (l : list A) :
  (∀ x, Q x → P x) → filter Q l `sublist_of` filter P l.
Proof.
  intros HQP. induction l as [|x l IH]; [done|].
  rewrite !filter_cons. destruct (decide (Q x)) as [HQ|HQ].
  - rewrite decide_True by auto. by apply sublist_skip.
  - destruct (decide (P x)); [by apply sublist_cons|done].
Qed.

(** X2.  [Filter] never reorders, repeats or invents records: what it
    returns is a subsequence of the store, whatever the filter set. *)
Theorem Filter_sublist s (filters : gmap string string) :
  Filter s filters `sublist_of` items s.
Proof. rewrite Filter_eq. apply sublist_filter. Qed.

(** X3.  More criteria, fewer records: when [filters'] has all the entries
    of [filters], what [Filter] returns for [filters'] is a subsequence of
    what it returns for [filters]. *)
Theorem Filter_anti_monotone s (filters filters' : gmap string string) :
  filters ⊆ filters' →
  Filter s filters' `sublist_of` Filter s filters.
Proof.
  intros Hsub. rewrite !Filter_eq. apply filter_sublist_impl.
  intros item H key value Hkv. apply H. by eapply lookup_weaken.
Qed.

Lemma Filter_anti_monotone_witness :
  Filter (mkStore testItems) (<["color" := "red"]> {["shape" := "square"]})
  `sublist_of` Filter (mkStore testItems) {["shape" := "square"]}.
Proof.
  apply (Filter_anti_monotone (mkStore testItems)).
  apply insert_subseteq. reflexivity.
Defined.

(** X4.  Filtering in two steps is filtering once with both filter sets:
    when the two sets give the same value to the keys they share, [Filter]
    with the second set on the result of [Filter] with the first returns what
    [Filter] returns for their union.  In particular filtering twice with one
    set changes nothing. *)
Theorem Filter_Filter s (filters1 filters2 : gmap string string) :
  (∀ key value1 value2,
     filters1 !! key = Some value1 → filters2 !! key = Some value2 →
     value1 = value2) →
  Filter (mkStore (Filter s filters1)) filters2 = Filter s (filters1 ∪ filters2).
Proof.
  intros Hagree. rewrite !Filter_eq. simpl.
  rewrite list_filter_filter. apply list_filter_iff. intros item.
  rewrite !map_Forall_lookup. split.
  - intros [H2 H1] key value [?|[_ ?]]%lookup_union_Some_raw; eauto.
  - intros H. split; intros key value Hkv.
    + destruct (filters1 !! key) as [value1|] eqn:E1.
      * rewrite <- (Hagree key value1 value E1 Hkv).
        apply H, lookup_union_Some_raw. by left.
      * apply H, lookup_union_Some_raw. by right.
    + apply H, lookup_union_Some_raw. by left.
Qed.

Lemma Filter_Filter_witness :
  Filter (mkStore (Filter (mkStore testItems) {["color" := "red"]}))
         {["shape" := "square"]}
  = Filter (mkStore testItems) ({["color" := "red"]} ∪ {["shape" := "square"]}).
Proof.
  apply (Filter_Filter (mkStore testItems)).
  intros key value1 value2 [<- _]%lookup_singleton_Some [Hk _]%lookup_singleton_Some.
  discriminate Hk.
Defined.

(** X5.  A value is among the unique values of an attribute exactly when
    filtering the store on that value leaves at least one record. *)
Theorem GetUniqueValues_iff_Filter_nonempty s property value :
  recognized property →
  value ∈ GetUniqueValues s property ↔ Filter s {[property := value]} ≠ [].
Proof.
  intros Hrec. unfold GetUniqueValues.
  destruct (unique_loop_spec property (items s) ∅ []) as [_ Hin].
  { constructor. }
  { intros v. rewrite elem_of_empty. split; [done|]. by intros ?%not_elem_of_nil. }
  rewrite Strings_Permutation, Hin. setoid_rewrite switch_property_attribute.
  rewrite Filter_eq.
  assert (∀ item,
    map_Forall (λ key v, filter_entry item (key, v) = true)
      ({[property := value]} : gmap string string)
    ↔ attribute property item = Some value) as Hone.
  { intros item. rewrite map_Forall_singleton, filter_entry_recognized by done.
    apply bool_decide_eq_true. }
  split.
  - intros [?%not_elem_of_nil|(item & Hitem & Hattr)]; [done|].
    intros Hnil. eapply (filter_nil_not_elem_of _ _ item); [exact Hnil| |done].
    by apply Hone.
  - intros Hne. right.
    destruct (filter _ (items s)) as [|item rest] eqn:E; [done|].
    assert (item ∈ filter (λ item, map_Forall (λ key v,
              filter_entry item (key, v) = true)
              ({[property := value]} : gmap string string)) (items s)) as Hin'.
    { rewrite E. by left. }
    apply list_elem_of_filter in Hin' as [HP Hitem].
    exists item. split; [done|]. by apply Hone.
Qed.

Lemma GetUniqueValues_iff_Filter_nonempty_witness :
  "red" ∈ GetUniqueValues (mkStore testItems) "color"
  ↔ Filter (mkStore testItems) {["color" := "red"]} ≠ [].
Proof.
  apply (GetUniqueValues_iff_Filter_nonempty (mkStore testItems) "color" "red").
  by left.
Defined.

End store_more.

(** ** What [New] and [Filter] share with their callers *)

Section sharing_more.

Import mem.

(** X6.  For every filter set, the slice that [Filter] returns holds the
    records that the list-level [itemstore.Filter] computes from the contents
    of the store's slice, and the call, with all its [append]s, leaves the
    sequence of the store as it was. *)
Theorem Filter_slice_holds_the_filtered_records (h : heap) s
    (filters : gmap string string) :
  valid h (items s) →
  contents (Filter s filters h).2 (Filter s filters h).1
  = itemstore.Filter (itemstore.mkStore (contents h (items s))) filters
  ∧ contents (Filter s filters h).2 (items s) = contents h (items s).
Proof. apply Filter_refines. Qed.

Lemma Filter_slice_holds_the_filtered_records_witness :
  contents (Filter (mkStore testSeed) {["color" := "red"]} testHeap).2
           (Filter (mkStore testSeed) {["color" := "red"]} testHeap).1
  = itemstore.Filter (itemstore.mkStore (contents testHeap (items (mkStore testSeed))))
      {["color" := "red"]}
  ∧ contents (Filter (mkStore testSeed) {["color" := "red"]} testHeap).2
      (items (mkStore testSeed))
    = contents testHeap (items (mkStore testSeed)).
Proof.
  apply (Filter_slice_holds_the_filtered_records testHeap (mkStore testSeed)
           {["color" := "red"]}).
  split; [|vm_compute; lia]. apply elem_of_dom. eexists. reflexivity.
Defined.

Lemma store_frame (h h' : heap) r t i x :
  apart r t → store r i x h = Some h' → contents h' t = contents h t.
Proof.
  destruct r as [|a off n]; [done|]. simpl. case_decide; [|done].
  intros Hrt [= <-]. destruct t as [|b off' n']; [done|]. simpl in *.
  by rewrite array_insert_ne.
Qed.

Lemma filter_loop_apart entries l (h : heap) result t :
  valid h result → valid h t → apart result t →
  apart (filter_loop entries l result h).1 t.
Proof.
  revert h result. induction l as [|item l IH]; intros h result Hr Ht Hrt; simpl.
  - done.
  - destruct (itemstore.matches item entries); [|by apply IH].
    destruct (append_spec h result item Hr) as [Hr' _].
    destruct (append_frame h result t item Hr Ht Hrt) as (Ht' & _ & Hrt').
    destruct (append result item h) as [result' h']. simpl in *.
    by apply IH.
Qed.

(** X7.  Whatever the filter set, the slice that [Filter] returns is on
    another backing array than the store's, so that no write through the
    result changes the sequence the store holds. *)
Theorem Filter_result_is_apart_from_the_store (h : heap) s
    (filters : gmap string string) :
  valid h (items s) →
  apart (Filter s filters h).1 (items s)
  ∧ ∀ i x h', store (Filter s filters h).1 i x (Filter s filters h).2 = Some h' →
      contents h' (items s) = contents h (items s).
Proof.
  intros Hvalid.
  assert (apart (Filter s filters h).1 (items s)) as Hapart.
  { destruct s as [seed]. simpl in *.
    destruct (decide (size filters = 0%nat)) as [Hsize|Hsize].
    - rewrite Filter_empty_eq by done. simpl.
      destruct seed as [|b off n]; [done|]. simpl in Hvalid.
      destruct Hvalid as [Hb _]. intros Heq. rewrite <- Heq in Hb.
      by apply is_fresh in Hb.
    - unfold Filter. rewrite decide_False by done. simpl.
      by apply filter_loop_apart. }
  split; [done|]. intros i x h' Hstore.
  rewrite (store_frame _ _ _ _ _ _ Hapart Hstore).
  by apply Filter_refines.
Qed.

Lemma Filter_result_is_apart_from_the_store_witness :
  apart (Filter (mkStore testSeed) {["color" := "red"]} testHeap).1 testSeed.
Proof.
  destruct (Filter_result_is_apart_from_the_store testHeap (mkStore testSeed)
              {["color" := "red"]}) as [Hapart _].
  - split; [|vm_compute; lia]. apply elem_of_dom. eexists. reflexivity.
  - exact Hapart.
Defined.

(** X8.  [New] makes no copy of the seed: the store holds the very slice it
    was given, and an element the caller writes into the seed afterwards is
    the element the store holds at that index. *)
Theorem New_shares_the_backing_array (h h' : heap) seed s i x :
  New seed h = inr s →
  store seed i x h = Some h' →
  contents h' (items s) = <[i := x]> (contents h seed).
Proof.
  intros ->%New_shares_the_seed.
  destruct seed as [|a off n]; [done|]. simpl. case_decide as Hi; [|done].
  intros [= <-]. rewrite array_insert.
  rewrite drop_insert_ge by lia. replace (off + i - off)%nat with i by lia.
  by rewrite take_insert_lt.
Qed.

Lemma New_shares_the_backing_array_witness :
  contents (<[1%positive := <[0%nat := zero]> itemstore.testItems]> testHeap)
    (items (mkStore testSeed))
  = <[0%nat := zero]> (contents testHeap testSeed).
Proof.
  apply (New_shares_the_backing_array testHeap _ testSeed (mkStore testSeed) 0 zero);
    reflexivity.
Defined.

End sharing_more.

(** ** The groups as a partition of the records *)

Section grouping_more.

Import itemstore main.

Lemma flatten_insert (m : gmap string (list Item)) v item :
  mjoin (map_to_list (<[v := default [] (m !! v) ++ [item]]> m)).*2
  ≡ₚ mjoin (map_to_list m).*2 ++ [item].
Proof.
  destruct (m !! v) as [old|] eqn:E; simpl.
  - rewrite <- insert_delete_eq.
    rewrite map_to_list_insert by apply lookup_delete_eq.
    rewrite <- (map_to_list_delete m v old E). simpl.
    rewrite <- !app_assoc. apply Permutation_app_head, Permutation_app_comm.
  - rewrite map_to_list_insert by done. simpl.
    apply Permutation_cons_append.
Qed.

(** The buckets of the map, one after the other, hold each record once. *)
Lemma group_loop_flatten getter l (m : gmap string (list Item)) :
  mjoin (map_to_list (group_loop getter l m)).*2 ≡ₚ mjoin (map_to_list m).*2 ++ l.
Proof.
  revert m. induction l as [|item l IH]; intros m; simpl.
  - by rewrite app_nil_r.
  - rewrite IH, flatten_insert. by rewrite <- app_assoc.
Qed.

Lemma group_loop_empty_iff getter l : group_loop getter l ∅ = ∅ ↔ l = [].
Proof.
  split; [|by intros ->].
  destruct l as [|item l]; [done|]. intros Hempty.
  assert (getter item ∈ dom (group_loop getter (item :: l) ∅)) as Hin.
  { rewrite group_loop_dom. apply elem_of_list_to_set. rewrite fmap_cons. by left. }
  rewrite Hempty, dom_empty_L in Hin. by apply elem_of_empty in Hin.
Qed.

Lemma groupItems_unrecognized_key_eq range l groupBy :
  ¬ recognized groupBy →
  groupItems_ranging range l groupBy = [ mkGroup "All Items" groupBy l ]
  ∧ main_store.groupItems l groupBy = {[ "All" := l ]}.
Proof.
  intros Hn. split.
  - unfold groupItems_ranging. by rewrite getPropertyGetter_unrecognized.
  - unfold main_store.groupItems, recognized in *.
    repeat case_decide; subst; tauto.
Qed.

Lemma collect_Items groupBy visited : Items <$> collect groupBy visited = visited.*2.
Proof. unfold collect. rewrite <- list_fmap_compose. done. Qed.

(** X9.  Grouping neither drops nor repeats a record: for every group-by
    string, recognized or not, and every order in which the map is visited,
    the members of the groups that the slice-returning [groupItems] returns,
    taken together, are the records it was given, each as often as it was
    given; so the sizes of the groups add up to the number of records. *)
Theorem groupItems_partitions_the_records range l groupBy :
  map_range range →
  mjoin (Items <$> groupItems_ranging range l groupBy) ≡ₚ l
  ∧ sum_list (length <$> (Items <$> groupItems_ranging range l groupBy)) = length l.
Proof.
  intros Hr.
  assert (mjoin (Items <$> groupItems_ranging range l groupBy) ≡ₚ l) as Hp.
  { unfold groupItems_ranging.
    destruct (getPropertyGetter groupBy) as [getter|]; simpl.
    - rewrite Slice_Permutation, collect_Items, (Hr _).
      by rewrite group_loop_flatten, map_to_list_empty.
    - by rewrite app_nil_r. }
  split; [done|]. by rewrite <- length_join, Hp.
Qed.

Lemma groupItems_partitions_the_records_witness :
  mjoin (Items <$> groupItems testItems "color") ≡ₚ testItems
  ∧ sum_list (length <$> (Items <$> groupItems testItems "color")) = length testItems.
Proof.
  apply (groupItems_partitions_the_records map_to_list testItems "color").
  intros m. reflexivity.
Defined.

Lemma main_store_groupItems_flatten l groupBy :
  mjoin (map_to_list (main_store.groupItems l groupBy)).*2 ≡ₚ l.
Proof.
  unfold main_store.groupItems.
  repeat case_decide;
    try (by rewrite group_loop_flatten, map_to_list_empty).
  rewrite insert_empty, map_to_list_singleton. simpl. by rewrite app_nil_r.
Qed.

(** X10.  The same of the map that the store-based [groupItems] returns:
    its values, taken together, are the records it was given, and their sizes
    add up to the number of records. *)
Theorem main_store_groupItems_partitions_the_records l groupBy :
  mjoin (map_to_list (main_store.groupItems l groupBy)).*2 ≡ₚ l
  ∧ sum_list (length <$> (map_to_list (main_store.groupItems l groupBy)).*2)
    = length l.
Proof.
  pose proof (main_store_groupItems_flatten l groupBy) as Hp.
  split; [done|]. by rewrite <- length_join, Hp.
Qed.

(** X11.  The only way to get no group at all is to group no record by a
    recognized key: for a key that is not recognized both [groupItems] return
    one group even when there is no record, with no member. *)
Theorem groupItems_empty_iff range l groupBy :
  map_range range →
  (groupItems_ranging range l groupBy = [] ↔ l = [] ∧ recognized groupBy)
  ∧ (main_store.groupItems l groupBy = ∅ ↔ l = [] ∧ recognized groupBy)
  ∧ (¬ recognized groupBy →
       groupItems_ranging range [] groupBy = [mkGroup "All Items" groupBy []]
       ∧ main_store.groupItems [] groupBy = {["All" := []]}).
Proof.
  intros Hr.
  destruct (decide (recognized groupBy)) as [Hrec|Hn].
  - destruct (getPropertyGetter_recognized _ Hrec) as (getter & Hg & _).
    rewrite (main_store_groupItems_recognized _ _ _ Hg).
    unfold groupItems_ranging. rewrite Hg.
    split; [|split; [|done]].
    + rewrite <- (group_loop_empty_iff getter l). split.
      * intros Hnil. split; [|done].
        apply map_to_list_empty_iff, Permutation_nil_r. rewrite <- (Hr _).
        apply (f_equal length) in Hnil.
        rewrite (Permutation_length (Slice_Permutation _ _)) in Hnil.
        unfold collect in Hnil. rewrite length_fmap in Hnil.
        by apply length_zero_iff_nil in Hnil as ->.
      * intros [Hm _]. rewrite Hm.
        assert (range ∅ = []) as ->; [|done].
        apply Permutation_nil_r. by rewrite (Hr ∅), map_to_list_empty.
    + rewrite group_loop_empty_iff. tauto.
  - destruct (groupItems_unrecognized_key_eq range l groupBy Hn) as [-> ->].
    split; [|split].
    + split; [done|tauto].
    + split; [|tauto]. intros Hempty. rewrite <- insert_empty in Hempty.
      by apply insert_non_empty in Hempty.
    + intros _. destruct (groupItems_unrecognized_key_eq range [] groupBy Hn).
      done.
Qed.

Lemma groupItems_empty_iff_witness :
  groupItems [] "color" = [] ∧ groupItems [] "bogus" = [mkGroup "All Items" "bogus" []].
Proof.
  destruct (groupItems_empty_iff map_to_list [] "color") as ([_ Hc] & _ & _).
  { intros m. reflexivity. }
  destruct (groupItems_empty_iff map_to_list [] "bogus") as (_ & _ & Hb).
  { intros m. reflexivity. }
  split.
  - apply Hc. split; [done|by left].
  - apply Hb. not_an_attribute_key.
Defined.

End grouping_more.

(** ** The other revisions of the handler *)

Section revisions.

Import itemstore.

(** The loop of [main.getUniqueValues], like that of [GetUniqueValues]. *)
Lemma getUniqueValues_loop_spec (getter : main.PropertyGetter) l
    (valueMap : gmap string bool) values :
  NoDup values →
  (∀ value, default false (valueMap !! value) = true ↔ value ∈ values) →
  NoDup (main.getUniqueValues_loop getter l valueMap values)
  ∧ ∀ value, value ∈ main.getUniqueValues_loop getter l valueMap values ↔
      value ∈ values ∨ value ∈ getter <$> l.
Proof.
  revert valueMap values.
  induction l as [|item l IH]; intros valueMap values Hnd Hmap; simpl.
  - split; [done|]. intros value. split; [by left|].
    by intros [?|?%not_elem_of_nil].
  - destruct (default false (valueMap !! getter item)) eqn:Hseen.
    + destruct (IH valueMap values Hnd Hmap) as [Hnd' Hin'].
      split; [done|]. intros value. rewrite Hin', elem_of_cons.
      split; [tauto|]. intros [?|[->|?]]; [tauto| |tauto].
      left. by apply Hmap.
    + destruct (IH (<[getter item := true]> valueMap) (values ++ [getter item]))
        as [Hnd' Hin'].
      { apply NoDup_app. split; [done|]. split; [|apply NoDup_singleton].
        intros x Hx ->%list_elem_of_singleton. apply Hmap in Hx. congruence. }
      { intros value. rewrite elem_of_app, list_elem_of_singleton, <- Hmap.
        destruct (decide (value = getter item)) as [->|Hne].
        - rewrite lookup_insert_eq. simpl. tauto.
        - rewrite lookup_insert_ne by done. tauto. }
      split; [done|]. intros value.
      rewrite Hin', elem_of_app, list_elem_of_singleton, elem_of_cons. tauto.
Qed.

Lemma getUniqueValues_loop_eq property getter l
    (valueMap : gmap string bool) (seen : gset string) values :
  (∀ item, switch_property property item = Some (getter item)) →
  (∀ value, default false (valueMap !! value) = true ↔ value ∈ seen) →
  main.getUniqueValues_loop getter l valueMap values
  = unique_loop property l seen values.
Proof.
  intros Hg. revert valueMap seen values.
  induction l as [|item l IH]; intros valueMap seen values Hmap; simpl; [done|].
  rewrite Hg. destruct (decide (getter item ∈ seen)) as [Hin|Hout].
  - apply Hmap in Hin as ->. by apply IH.
  - destruct (default false (valueMap !! getter item)) eqn:Hseen.
    { by apply Hmap in Hseen. }
    apply IH. intros value. rewrite elem_of_union, elem_of_singleton.
    destruct (decide (value = getter item)) as [->|Hne].
    + rewrite lookup_insert_eq. simpl. tauto.
    + rewrite lookup_insert_ne, Hmap by done. tauto.
Qed.

(** X12.  [getUniqueValues] of [main.go] returns, for any getter, a strictly
    ascending list of the values the getter takes on the items; with the
    getter of a property it returns what [GetUniqueValues] of the store
    package returns for that property. *)
Theorem getUniqueValues_sorted_and_as_in_the_store l (getter : main.PropertyGetter) :
  StronglySorted sort.less (main.getUniqueValues l getter)
  ∧ list_to_set (main.getUniqueValues l getter) =@{gset string} list_to_set (getter <$> l)
  ∧ ∀ property, main.getPropertyGetter property = Some getter →
      main.getUniqueValues l getter = GetUniqueValues (mkStore l) property.
Proof.
  unfold main.getUniqueValues.
  destruct (getUniqueValues_loop_spec getter l ∅ []) as [Hnd Hin].
  { constructor. }
  { intros value. rewrite lookup_empty. simpl. split; [done|].
    by intros ?%not_elem_of_nil. }
  split; [by apply Strings_strictly_sorted|]. split.
  - apply set_eq. intros value.
    rewrite !elem_of_list_to_set, Strings_Permutation, Hin.
    split; [by intros [?%not_elem_of_nil|?]|by right].
  - intros property Hg. unfold GetUniqueValues. f_equal. simpl.
    apply getUniqueValues_loop_eq.
    + intros item. unfold main.getPropertyGetter, switch_property in *.
      repeat case_decide; by simplify_eq.
    + intros value. rewrite lookup_empty. simpl. split; [done|].
      by intros ?%elem_of_empty.
Qed.

Lemma getUniqueValues_sorted_and_as_in_the_store_witness :
  main.getUniqueValues testItems Color = GetUniqueValues (mkStore testItems) "color".
Proof.
  destruct (getUniqueValues_sorted_and_as_in_the_store testItems Color)
    as (_ & _ & Heq).
  apply Heq. reflexivity.
Defined.

Lemma filter_none {A} (P : A → Prop) `{∀ x, Decision (P x)} (l : list A) :
  Forall (λ x, ¬ P x) l → filter P l = [].
Proof.
  induction 1 as [|x l Hx Hl IH]; [done|]. by rewrite filter_cons_False.
Qed.

Lemma append_if_eq keep l result :
  main_v0.append_if keep l result = result ++ filter (λ item, keep item = true) l.
Proof.
  revert result. induction l as [|item l IH]; intros result; simpl.
  - by rewrite app_nil_r.
  - rewrite filter_cons. destruct (keep item) eqn:E.
    + rewrite decide_True by done. rewrite IH. by rewrite <- app_assoc.
    + rewrite decide_False by done. apply IH.
Qed.

Lemma main_v0_matches_attribute item filterBy filterValue :
  main_v0.matches item filterBy filterValue = true
  ↔ attribute filterBy item = Some filterValue.
Proof.
  unfold main_v0.matches.
  destruct (decide (recognized filterBy)) as [[->|[->| ->]]|Hn]; simpl.
  - rewrite bool_decide_eq_true, attribute_color. split; congruence.
  - rewrite bool_decide_eq_true, attribute_shape. split; congruence.
  - rewrite bool_decide_eq_true, attribute_category. split; congruence.
  - rewrite attribute_unrecognized by done. unfold recognized in Hn.
    repeat case_decide; subst; try tauto. done.
Qed.

(** X13.  The first [itemsHandler] never drops a record: it returns the
    records in another order, those with the value asked for first and the
    others after them, each part in the order of [items]; without both
    parameters, or with a [filterBy] that is not an attribute key, the order
    is that of [items]. *)
Theorem main_v0_itemsHandler_reorders items filterBy filterValue :
  main_v0.itemsHandler_items items filterBy filterValue ≡ₚ items
  ∧ main_v0.itemsHandler_items items filterBy filterValue
    = (if decide (filterBy = "" ∨ filterValue = "") then items
       else filter (λ item, attribute filterBy item = Some filterValue) items
            ++ filter (λ item, attribute filterBy item ≠ Some filterValue) items)
  ∧ (¬ recognized filterBy →
     main_v0.itemsHandler_items items filterBy filterValue = items).
Proof.
  assert (main_v0.itemsHandler_items items filterBy filterValue
    = (if decide (filterBy = "" ∨ filterValue = "") then items
       else filter (λ item, attribute filterBy item = Some filterValue) items
            ++ filter (λ item, attribute filterBy item ≠ Some filterValue) items))
    as Heq.
  { unfold main_v0.itemsHandler_items.
    destruct (decide (filterBy = "" ∨ filterValue = "")) as [[->| ->]|Hne].
    - done.
    - by rewrite andb_false_r.
    - rewrite !bool_decide_eq_true_2 by tauto. simpl.
      rewrite !append_if_eq. simpl. f_equal.
      + apply list_filter_iff. intros item. apply main_v0_matches_attribute.
      + apply list_filter_iff. intros item.
        rewrite negb_true_iff, <- not_true_iff_false.
        by rewrite main_v0_matches_attribute. }
  split; [|split; [done|]].
  - rewrite Heq. case_decide; [done|]. apply filter_app_complement.
  - intros Hn. rewrite Heq. case_decide; [done|].
    rewrite (filter_Forall (λ item, attribute filterBy item ≠ Some filterValue)).
    + rewrite filter_none; [done|].
      apply Forall_forall. intros item _. by rewrite attribute_unrecognized.
    + apply Forall_forall. intros item _. by rewrite attribute_unrecognized.
Qed.

Lemma main_v0_itemsHandler_reorders_witness :
  main_v0.itemsHandler_items testItems "size" "big" = testItems.
Proof.
  apply (main_v0_itemsHandler_reorders testItems "size" "big").
  not_an_attribute_key.
Defined.

Lemma StronglySorted_fmap_key {A B} (f : A → B) (key : A → string)
    (key' : B → string) (l : list A) :
  (∀ x, key' (f x) = key x) →
  StronglySorted (sort.key_le key) l →
  StronglySorted (sort.key_le key') (f <$> l).
Proof.
  intros Hk. induction 1 as [|x l Hl IH Hx]; simpl; constructor; [done|].
  apply Forall_fmap. eapply Forall_impl; [exact Hx|].
  intros y Hy. unfold sort.key_le in *. simpl. by rewrite !Hk.
Qed.

(** The second [itemsHandler] filters as the later ones do. *)
Lemma main_v1_itemsHandler_filter_eq items filterBy filterValue :
  main_v1.itemsHandler_filter items filterBy filterValue
  = main.itemsHandler_filter items filterBy filterValue.
Proof.
  unfold main_v1.itemsHandler_filter, main.itemsHandler_filter.
  destruct (_ && _); [|done]. rewrite append_if_eq. simpl.
  destruct (decide (recognized filterBy)) as [Hr|Hn].
  - destruct (getPropertyGetter_recognized _ Hr) as (getter & -> & Hattr).
    rewrite List_filter_bool_decide. apply list_filter_iff. intros item.
    rewrite main_v0_matches_attribute, Hattr. split; congruence.
  - rewrite getPropertyGetter_unrecognized by done.
    apply filter_none, Forall_forall. intros item _.
    rewrite main_v0_matches_attribute, attribute_unrecognized; done.
Qed.

Lemma main_v1_entries (visited : list (string * list Item)) :
  (λ g, (main_v1.Shape g, main_v1.Items g))
    <$> ((λ entry, main_v1.mkGroup entry.1 entry.2) <$> visited) = visited.
Proof. induction visited as [|[] ? IH]; simpl; [done|]. by f_equal. Qed.

(** X14.  The handler that could only group by shape and the later one
    agree: for every visiting order of the map it returns the groups that the
    later [itemsHandler] returns when [groupBy] is ["shape"] or is missing,
    with the same keys and members in the same order. *)
Theorem main_v1_itemsHandler_groups_as_later range items filterBy filterValue :
  main.map_range range →
  (λ g, (main_v1.Shape g, main_v1.Items g))
    <$> main_v1.itemsHandler_groups range items filterBy filterValue
  = (λ g, (main.GroupName g, main.Items g))
    <$> main.itemsHandler_groups items filterBy filterValue "shape"
  ∧ main.itemsHandler_groups items filterBy filterValue ""
    = main.itemsHandler_groups items filterBy filterValue "shape".
Proof.
  intros Hr. split; [|done].
  unfold main_v1.itemsHandler_groups, main.itemsHandler_groups.
  rewrite main_v1_itemsHandler_filter_eq. simpl.
  set (filtered := main.itemsHandler_filter items filterBy filterValue).
  set (m := main.group_loop Shape filtered ∅).
  unfold main.groupItems, main.groupItems_ranging. simpl. fold m.
  set (l1 := _ <$> sort.Slice main_v1.Shape _).
  set (l2 := _ <$> sort.Slice main.GroupName _).
  assert (l1 ≡ₚ map_to_list m) as H1.
  { unfold l1. by rewrite Slice_Permutation, main_v1_entries, (Hr m). }
  assert (l2 ≡ₚ map_to_list m) as H2.
  { unfold l2. by rewrite Slice_Permutation, collect_entries. }
  apply (sorted_permutation_unique fst).
  - rewrite H1. apply NoDup_fst_map_to_list.
  - by rewrite H1, H2.
  - apply StronglySorted_fmap_key with (key := main_v1.Shape); [done|].
    apply Slice_sorted.
  - apply StronglySorted_fmap_key with (key := main.GroupName); [done|].
    apply Slice_sorted.
Qed.

Lemma main_v1_itemsHandler_groups_as_later_witness :
  (λ g, (main_v1.Shape g, main_v1.Items g))
    <$> main_v1.itemsHandler_groups (λ m, reverse (map_to_list m)) testItems "color" "red"
  = (λ g, (main.GroupName g, main.Items g))
    <$> main.itemsHandler_groups testItems "color" "red" "shape".
Proof.
  apply (main_v1_itemsHandler_groups_as_later (λ m, reverse (map_to_list m))).
  intros m. apply reverse_Permutation.
Defined.

(** X15.  An unknown filter empties the page of the later [itemsHandler]:
    with both parameters given and a [filterBy] that is not an attribute key
    it has no group to show when [groupBy] is recognized or missing, and the
    one group ["All Items"], without members, when [groupBy] is not
    recognized either. *)
Theorem main_itemsHandler_unrecognized_filter items filterBy filterValue groupBy :
  ¬ recognized filterBy → filterBy ≠ "" → filterValue ≠ "" →
  main.itemsHandler_groups items filterBy filterValue groupBy
  = if decide (groupBy = "" ∨ recognized groupBy) then []
    else [main.mkGroup "All Items" groupBy []].
Proof.
  intros Hn Hby Hvalue. unfold main.itemsHandler_groups, main.itemsHandler_filter.
  rewrite !bool_decide_eq_true_2 by done. simpl.
  rewrite getPropertyGetter_unrecognized by done.
  unfold main.groupItems, main.groupItems_ranging.
  destruct (decide (groupBy = "")) as [->|Hg]; [done|].
  destruct (decide (recognized groupBy)) as [Hr|Hu].
  - destruct (getPropertyGetter_recognized _ Hr) as (getter & -> & _).
    rewrite decide_True by tauto. done.
  - rewrite getPropertyGetter_unrecognized by done.
    rewrite decide_False by tauto. done.
Qed.

Lemma main_itemsHandler_unrecognized_filter_witness :
  main.itemsHandler_groups testItems "size" "big" "" = []
  ∧ main.itemsHandler_groups testItems "size" "big" "bogus"
    = [main.mkGroup "All Items" "bogus" []].
Proof.
  split.
  - apply (main_itemsHandler_unrecognized_filter testItems "size" "big" "");
      [not_an_attribute_key|discriminate..].
  - apply (main_itemsHandler_unrecognized_filter testItems "size" "big" "bogus");
      [not_an_attribute_key|discriminate..].
Defined.

End revisions.

(** ** The handler on top of the store *)

Section handler.

Import itemstore main_store.

Lemma GetUniqueValues_spec store property :
  NoDup (GetUniqueValues store property)
  ∧ ∀ value, value ∈ GetUniqueValues store property ↔
      ∃ item, item ∈ items store ∧ attribute property item = Some value.
Proof.
  unfold GetUniqueValues.
  destruct (unique_loop_spec property (items store) ∅ []) as [Hnd Hin].
  { constructor. }
  { intros value. rewrite elem_of_empty. split; [done|].
    by intros ?%not_elem_of_nil. }
  split; [by rewrite Strings_Permutation|].
  intros value. rewrite Strings_Permutation, Hin.
  setoid_rewrite switch_property_attribute. split; [|by right].
  intros [?%not_elem_of_nil|?]; done.
Qed.

Lemma no_colon_nil : strings.no_colon "".
Proof. intros [|??] after; discriminate. Qed.

Lemma no_colon_cons a s :
  strings.no_colon (String a s) ↔ a ≠ ":"%char ∧ strings.no_colon s.
Proof.
  split.
  - intros Hno. split.
    + intros ->. by apply (Hno "" s).
    + intros before after ->. by apply (Hno (String a before) after).
  - intros [Ha Hno] [|b before] after; simpl; intros [= ? ?]; [done|].
    by eapply Hno.
Qed.

Lemma cut_colon_app before after :
  strings.no_colon before →
  strings.cut_colon (before +:+ ":" +:+ after) = Some (before, after).
Proof.
  induction before as [|a before IH]; intros Hno; simpl; [done|].
  apply no_colon_cons in Hno as [Ha Hno].
  destruct (Ascii.eqb_spec a ":") as [->|_]; [done|]. by rewrite IH.
Qed.

Lemma cut_colon_Some s before after :
  strings.cut_colon s = Some (before, after) ↔
  s = before +:+ ":" +:+ after ∧ strings.no_colon before.
Proof.
  split; [|intros [-> Hno]; by apply cut_colon_app].
  revert before. induction s as [|a s IH]; intros before; simpl; [done|].
  destruct (Ascii.eqb_spec a ":") as [->|Hne].
  - intros [= <- <-]. split; [done|apply no_colon_nil].
  - destruct (strings.cut_colon s) as [[b c]|]; [|done].
    intros [= <- <-]. destruct (IH b eq_refl) as [-> Hno].
    split; [done|]. by apply no_colon_cons.
Qed.

Lemma SplitN_colon_2_cut filter :
  match strings.SplitN_colon_2 filter with
  | [key; value] => strings.cut_colon filter = Some (key, value)
  | _ => strings.cut_colon filter = None
  end.
Proof.
  unfold strings.SplitN_colon_2. by destruct (strings.cut_colon filter) as [[??]|].
Qed.

(** What the loop over the [filter] parameters leaves under a key: the value
    of the last parameter with that key, if there is one. *)
Lemma parse_filters_lookup params (filters : gmap string string) key :
  parse_filters params filters !! key
  = match last (filter (λ kv, kv.1 = key) (omap strings.cut_colon params)) with
    | Some kv => Some kv.2
    | None => filters !! key
    end.
Proof.
  revert filters. induction params as [|param params IH]; intros filters; [done|].
  cbn [parse_filters]. pose proof (SplitN_colon_2_cut param) as Hcut.
  destruct (strings.SplitN_colon_2 param) as [|k [|v [|? ?]]];
    csimpl; rewrite Hcut; rewrite IH; try done.
  simpl. rewrite filter_cons. simpl.
  destruct (decide (k = key)) as [->|Hne].
  - rewrite last_cons. destruct (last _); [done|]. simpl. apply lookup_insert_eq.
  - destruct (last _); [done|]. by apply lookup_insert_ne.
Qed.

(** X16.  The filter set that [itemsHandler] reads from a query: a [filter]
    parameter counts when it has a colon, its key is what is before the
    first colon and its value all that is after it; of several parameters
    with one key the last wins, and the pair [filterBy], [filterValue], when
    both are given, wins over them. *)
Theorem request_filters_lookup (q : Values) key :
  request_filters q !! key
  = if decide (Get q "filterBy" = key ∧ key ≠ "" ∧ Get q "filterValue" ≠ "")
    then Some (Get q "filterValue")
    else snd <$> last (filter (λ kv, kv.1 = key)
                         (omap strings.cut_colon (default [] (q !! "filter")))).
Proof.
  unfold request_filters.
  assert (∀ params, parse_filters params ∅ !! key
            = snd <$> last (filter (λ kv, kv.1 = key)
                              (omap strings.cut_colon params))) as Hparse.
  { intros params. rewrite parse_filters_lookup, lookup_empty.
    by destruct (last _). }
  destruct (decide (Get q "filterBy" ≠ "")) as [Hby|Hby];
    [destruct (decide (Get q "filterValue" ≠ "")) as [Hvalue|Hvalue]|].
  - destruct (decide (Get q "filterBy" = key)) as [<-|Hne].
    + rewrite decide_True by done. apply lookup_insert_eq.
    + rewrite decide_False by tauto. rewrite lookup_insert_ne by done. apply Hparse.
  - rewrite decide_False by tauto. apply Hparse.
  - rewrite decide_False; [apply Hparse|].
    intros (Heq & Hkey & _). apply Hby. congruence.
Qed.

(** The counts of the sidebar: the loop leaves, under each value it is given,
    the number of records with that value. *)
Lemma count_loop_lookup store property values (counts : gmap string nat) value :
  count_loop store property values counts !! value
  = if decide (value ∈ values)
    then Some (length (Filter store {[property := value]}))
    else counts !! value.
Proof.
  revert counts. induction values as [|v values IH]; intros counts.
  - done.
  - cbn [count_loop].
    rewrite IH. destruct (decide (value ∈ values)) as [Hin|Hout].
    + rewrite decide_True; [done|]. by right.
    + destruct (decide (value = v)) as [->|Hne].
      * rewrite lookup_insert_eq, decide_True; [done|]. by left.
      * rewrite lookup_insert_ne by done. rewrite decide_False; [done|].
        rewrite elem_of_cons. tauto.
Qed.

Lemma Filter_single store property value :
  recognized property →
  Filter store {[property := value]}
  = filter (λ item, attribute property item = Some value) (items store).
Proof.
  intros Hrec. rewrite Filter_eq. apply list_filter_iff. intros item.
  rewrite map_Forall_singleton, filter_entry_recognized by done.
  apply bool_decide_eq_true.
Qed.

(** The records split by the value of a key: the numbers of records under
    each of the values add up to the number of records. *)
Lemma sum_length_by_value {A} (f : A → string) (l : list A) (values : list string) :
  NoDup values →
  (∀ x, x ∈ l → f x ∈ values) →
  sum_list ((λ value, length (filter (λ x, f x = value) l)) <$> values) = length l.
Proof.
  intros Hnd. revert l. induction Hnd as [|v values Hv Hnd IH]; intros l Hl.
  - destruct l as [|x l]; [done|]. destruct (not_elem_of_nil (f x)).
    apply Hl. by left.
  - rewrite fmap_cons. cbn [sum_list sum_list_with].
    transitivity (length (filter (λ x, f x = v) l ++ filter (λ x, ¬ f x = v) l));
      [|apply Permutation_length, filter_app_complement].
    rewrite length_app. f_equal.
    rewrite <- (IH (filter (λ x, ¬ f x = v) l)).
    + apply (f_equal sum_list), list_fmap_ext. intros i v' Hv'.
      rewrite list_filter_filter. f_equal. apply list_filter_iff. intros x.
      split; [|tauto]. intros Hx. split; [done|]. intros Heq.
      apply Hv. rewrite <- Heq, Hx. by eapply list_elem_of_lookup_2.
    + intros x [Hne Hx]%list_elem_of_filter.
      apply Hl, elem_of_cons in Hx as [?|?]; [done|done].
Qed.

Lemma unique_counts_sum store property :
  recognized property →
  sum_list (map_to_list (unique_counts store property)).*2 = length (items store).
Proof.
  intros Hrec.
  destruct (GetUniqueValues_spec store property) as (Hnd & Hin).
  destruct (getPropertyGetter_recognized _ Hrec) as (getter & _ & Hattr).
  set (values := GetUniqueValues store property) in *.
  set (pairs := (λ value, (value, length (Filter store {[property := value]})))
                  <$> values).
  assert (pairs.*1 = values) as Hkeys.
  { unfold pairs. rewrite <- list_fmap_compose. apply list_fmap_id. }
  assert (unique_counts store property = list_to_map pairs) as ->.
  { apply map_eq. intros value. unfold unique_counts. fold values.
    rewrite count_loop_lookup, lookup_empty. case_decide as Hv.
    - symmetry. apply elem_of_list_to_map_1; [by rewrite Hkeys|].
      unfold pairs. apply list_elem_of_fmap. eauto.
    - symmetry. apply not_elem_of_list_to_map. by rewrite Hkeys. }
  rewrite map_to_list_to_map by (by rewrite Hkeys).
  unfold pairs. rewrite <- list_fmap_compose.
  rewrite <- (sum_length_by_value getter (items store) values Hnd).
  - apply (f_equal sum_list), list_fmap_ext. intros i value _. simpl.
    rewrite Filter_single by done. f_equal. apply list_filter_iff.
    intros item. rewrite Hattr. split; congruence.
  - intros item Hitem. apply Hin. exists item. by rewrite Hattr.
Qed.

(** X17.  The counts of the sidebar, for a recognized property: there is a
    count for each value that the property takes in the store and for no other
    string, it is the number of records with that value and so is not zero,
    and the counts add up to the number of records of the store. *)
Theorem unique_counts_spec store property :
  recognized property →
  dom (unique_counts store property) = values property (items store)
  ∧ (∀ value n, unique_counts store property !! value = Some n →
       n = length (filter (λ item, attribute property item = Some value)
                     (items store))
       ∧ (0 < n)%nat)
  ∧ sum_list (map_to_list (unique_counts store property)).*2 = length (items store).
Proof.
  intros Hrec.
  destruct (GetUniqueValues_spec store property) as (Hnd & Hin).
  assert (∀ value, value ∈ GetUniqueValues store property ↔
                   value ∈ values property (items store)) as Hvalues.
  { intros value. unfold values.
    by rewrite Hin, elem_of_list_to_set, list_elem_of_omap. }
  split; [|split; [|by apply unique_counts_sum]].
  - apply set_eq. intros value. rewrite elem_of_dom, <- Hvalues.
    unfold unique_counts. rewrite count_loop_lookup, lookup_empty.
    case_decide; [by split; eauto|]. split; [by intros [??]|done].
  - intros value n. unfold unique_counts.
    rewrite count_loop_lookup, lookup_empty. case_decide as Hv; [|done].
    intros [= <-]. rewrite Filter_single by done. split; [done|].
    apply Hin in Hv as (item & Hitem & Hattr).
    assert (item ∈ filter (λ item, attribute property item = Some value)
                     (items store)) as Hmem.
    { by apply list_elem_of_filter. }
    destruct (filter _ (items store)) as [|? ?]; [|simpl; lia].
    by apply not_elem_of_nil in Hmem.
Qed.

Lemma unique_counts_spec_witness :
  sum_list (map_to_list (unique_counts (mkStore sampleItems) "color")).*2
  = length sampleItems.
Proof.
  destruct (unique_counts_spec (mkStore sampleItems) "color") as (_ & _ & Hsum).
  - by left.
  - exact Hsum.
Defined.

(** X18.  What [itemsHandler] hands to the template fits together: the
    groups hold, taken together, the records that pass the active filters,
    each once; those records are a subsequence of [AllItems], which is the
    whole store; the group-by key is never empty; and the counts of the
    colors, of the shapes and of the categories each add up to the number of
    [AllItems]. *)
Theorem itemsHandler_data_fits_together store (q : Values) :
  mjoin (map_to_list (GroupedItems (itemsHandler store q))).*2
    ≡ₚ Filter store (ActiveFilters (itemsHandler store q))
  ∧ Filter store (ActiveFilters (itemsHandler store q))
      `sublist_of` AllItems (itemsHandler store q)
  ∧ AllItems (itemsHandler store q) = items store
  ∧ GroupBy (itemsHandler store q) ≠ ""
  ∧ sum_list (map_to_list (UniqueColors (itemsHandler store q))).*2
    = length (AllItems (itemsHandler store q))
  ∧ sum_list (map_to_list (UniqueShapes (itemsHandler store q))).*2
    = length (AllItems (itemsHandler store q))
  ∧ sum_list (map_to_list (UniqueCategories (itemsHandler store q))).*2
    = length (AllItems (itemsHandler store q)).
Proof.
  simpl. split; [apply main_store_groupItems_flatten|].
  split; [rewrite Filter_eq; apply sublist_filter|].
  split; [done|]. split.
  - unfold request_groupBy. by case_decide.
  - unfold recognized.
    split; [|split]; apply unique_counts_sum; unfold recognized; tauto.
Qed.

End handler.

(** ** The filters of the page *)

Section page_filters.

Import filters_js.

Lemma findIndex_Some {A} (P : A → Prop) `{∀ x, Decision (P x)} (l : list A) i :
  findIndex P l = Some i →
  ∃ x l1 l2, l = l1 ++ x :: l2 ∧ i = length l1 ∧ P x ∧ Forall (λ y, ¬ P y) l1.
Proof.
  unfold findIndex. destruct (list_find P l) as [[j x]|] eqn:E; [|done].
  intros [= <-]. apply list_find_Some in E as (Hj & HP & Hfirst).
  apply list_elem_of_split_length in Hj as (l1 & l2 & -> & ->).
  exists x, l1, l2. split; [done|]. split; [done|]. split; [done|].
  apply Forall_forall. intros y Hy.
  apply list_elem_of_lookup in Hy as [k Hk].
  apply (Hfirst k).
  - by rewrite lookup_app_l by (by eapply lookup_lt_Some).
  - by eapply lookup_lt_Some.
Qed.

Lemma findIndex_None {A} (P : A → Prop) `{∀ x, Decision (P x)} (l : list A) :
  findIndex P l = None ↔ Forall (λ y, ¬ P y) l.
Proof.
  unfold findIndex. rewrite <- list_find_None. apply fmap_None.
Qed.

Lemma insert_middle {A} (l1 l2 : list A) x y :
  <[length l1 := y]> (l1 ++ x :: l2) = l1 ++ y :: l2.
Proof. induction l1; simpl; [done|]. by f_equal. Qed.

(** The update of the list, read on the map from types to values: the
    filter is taken out when it is there, and put in otherwise, in place of
    the filter of its type if there is one. *)
Lemma update_map (l : list (string * string)) t v :
  NoDup l.*1 →
  NoDup (update l t v).*1
  ∧ list_to_map (update l t v)
    =@{gmap string string}
      if decide ((t, v) ∈ l) then delete t (list_to_map l)
      else <[t := v]> (list_to_map l).
Proof.
  intros Hnd. unfold update.
  destruct (findIndex (λ f, f.1 = t ∧ f.2 = v) l) as [i|] eqn:Hexact.
  - apply findIndex_Some in Hexact as ([t' v'] & l1 & l2 & -> & -> & [Ht Hv] & _).
    simpl in Ht, Hv. subst t' v'.
    rewrite delete_middle.
    rewrite fmap_app, fmap_cons in Hnd. simpl in Hnd.
    apply NoDup_app in Hnd as (Hnd1 & Hdisj & [Ht2 Hnd2]%NoDup_cons).
    assert (t ∉ l1.*1) as Ht1.
    { intros Hin. apply (Hdisj _ Hin). by left. }
    split.
    + rewrite fmap_app. apply NoDup_app. split; [done|]. split; [|done].
      intros x Hx Hx2. apply (Hdisj _ Hx). by right.
    + rewrite decide_True by (apply elem_of_app; right; by left).
      rewrite !list_to_map_app, list_to_map_cons, delete_union.
      rewrite delete_insert_eq.
      rewrite !delete_id; [done|by apply not_elem_of_list_to_map..].
  - apply findIndex_None in Hexact.
    assert ((t, v) ∉ l) as Hnotin.
    { intros Hin. rewrite Forall_forall in Hexact. by apply (Hexact _ Hin). }
    rewrite decide_False by done.
    destruct (findIndex (λ f, f.1 = t) l) as [j|] eqn:Htype.
    + apply findIndex_Some in Htype as ([t' v'] & l1 & l2 & -> & -> & Ht & _).
      simpl in Ht. subst t'. rewrite insert_middle.
      assert ((l1 ++ (t, v) :: l2).*1 = (l1 ++ (t, v') :: l2).*1) as Hkeys.
      { by rewrite !fmap_app, !fmap_cons. }
      split; [by rewrite Hkeys|].
      rewrite fmap_app, fmap_cons in Hnd. simpl in Hnd.
      apply NoDup_app in Hnd as (Hnd1 & Hdisj & _).
      assert (t ∉ l1.*1) as Ht1.
      { intros Hin. apply (Hdisj _ Hin). by left. }
      rewrite !list_to_map_app, !list_to_map_cons.
      rewrite insert_union_r by (by apply not_elem_of_list_to_map).
      by rewrite insert_insert_eq.
    + apply findIndex_None in Htype.
      assert (t ∉ l.*1) as Ht.
      { intros ([t' v'] & Heq & Hin)%list_elem_of_fmap. simpl in Heq. subst t'.
        rewrite Forall_forall in Htype. by apply (Htype _ Hin). }
      split.
      * rewrite fmap_app. apply NoDup_app. split; [done|].
        split; [|apply NoDup_singleton].
        by intros x Hx ->%list_elem_of_singleton.
      * by apply list_to_map_snoc.
Qed.

(** X19.  [setActiveFilter] keeps at most one filter per type, and on the
    map from types to values its update is a toggle: a filter that is set is
    removed, and any other is set, replacing the filter of its type if there
    is one; the filters of the other types stay as they are. *)
Theorem update_toggles_the_filter (l : list (string * string)) t v :
  NoDup l.*1 →
  NoDup (update l t v).*1
  ∧ list_to_map (update l t v)
    =@{gmap string string}
      if decide ((t, v) ∈ l) then delete t (list_to_map l)
      else <[t := v]> (list_to_map l).
Proof. apply update_map. Qed.

Lemma update_toggles_the_filter_witness :
  update [("color", "red"); ("shape", "circle")] "color" "blue"
  = [("color", "blue"); ("shape", "circle")]
  ∧ NoDup (update [("color", "red"); ("shape", "circle")] "color" "blue").*1.
Proof.
  split; [reflexivity|].
  apply (update_toggles_the_filter [("color", "red"); ("shape", "circle")]).
  apply (bool_decide_unpack _). reflexivity.
Defined.

(** X20.  A second click undoes the first: when the filter is set, or no
    filter of its type is, applying the update twice gives back the map of
    the filters; and when no filter of its type is set it gives back the very
    list. *)
Theorem update_twice (l : list (string * string)) t v :
  NoDup l.*1 →
  (t, v) ∈ l ∨ t ∉ l.*1 →
  list_to_map (update (update l t v) t v) =@{gmap string string} list_to_map l
  ∧ (t ∉ l.*1 → update (update l t v) t v = l).
Proof.
  intros Hnd Hcase.
  destruct (update_map l t v Hnd) as [Hnd1 Hmap1].
  destruct (update_map (update l t v) t v Hnd1) as [_ Hmap2].
  split.
  - rewrite Hmap2, Hmap1. destruct Hcase as [Hin|Hout].
    + assert ((list_to_map l : gmap string string) !! t = Some v) as Hl.
      { by apply elem_of_list_to_map. }
      rewrite (decide_True (P := (t, v) ∈ l)) by done.
      rewrite decide_False.
      * by apply insert_delete_id.
      * intros Hin'. apply (elem_of_list_to_map (M := gmap string)) in Hin'; [|done].
        rewrite Hmap1, decide_True, lookup_delete_eq in Hin' by done. done.
    + assert ((t, v) ∉ l) as Hnotin.
      { intros Hin. apply Hout, list_elem_of_fmap. by exists (t, v). }
      rewrite (decide_False (P := (t, v) ∈ l)) by done.
      rewrite decide_True.
      * apply delete_insert_id. by apply not_elem_of_list_to_map.
      * apply (elem_of_list_to_map (M := gmap string)); [done|].
        rewrite Hmap1, decide_False by done. apply lookup_insert_eq.
  - intros Hout.
    assert (Forall (λ f : string * string, ¬ f.1 = t) l) as Htype.
    { apply Forall_forall. intros f Hf Heq. apply Hout, list_elem_of_fmap. eauto. }
    assert (Forall (λ f : string * string, ¬ (f.1 = t ∧ f.2 = v)) l) as Hexact.
    { eapply Forall_impl; [exact Htype|]. simpl. tauto. }
    assert (update l t v = l ++ [(t, v)]) as ->.
    { unfold update.
      by rewrite (proj2 (findIndex_None _ l) Hexact),
                 (proj2 (findIndex_None _ l) Htype). }
    unfold update.
    assert (findIndex (λ f : string * string, f.1 = t ∧ f.2 = v) (l ++ [(t, v)])
            = Some (length l)) as ->.
    { unfold findIndex.
      assert (list_find (λ f : string * string, f.1 = t ∧ f.2 = v) (l ++ [(t, v)])
              = Some (length l, (t, v))) as ->; [|done].
      apply list_find_Some. split; [|split; [done|]].
      - by rewrite lookup_app_r, Nat.sub_diag.
      - intros j y Hj Hlt. rewrite lookup_app_l in Hj by done.
        rewrite Forall_forall in Hexact. apply Hexact.
        by eapply list_elem_of_lookup_2. }
    by rewrite delete_middle, app_nil_r.
Qed.

Lemma update_twice_witness :
  update (update [("shape", "circle")] "color" "red") "color" "red"
  = [("shape", "circle")].
Proof.
  apply (update_twice [("shape", "circle")] "color" "red").
  - apply (bool_decide_unpack _). reflexivity.
  - right. apply (bool_decide_unpack _). reflexivity.
  - apply (bool_decide_unpack _). reflexivity.
Defined.

(** The parts of a split have no colon. *)
Lemma split_no_colon s : Forall strings.no_colon (split s).
Proof.
  induction s as [|a s IH]; simpl.
  - repeat constructor. apply no_colon_nil.
  - destruct (Ascii.eqb_spec a ":") as [->|Hne].
    + constructor; [apply no_colon_nil|done].
    + destruct (split s) as [|first others]; [repeat constructor|].
      * by apply no_colon_cons; split; [|apply no_colon_nil].
      * apply Forall_cons in IH as [Hfirst Hothers].
        constructor; [|done]. by apply no_colon_cons.
Qed.

Lemma currentFilters_no_colon params :
  Forall (λ f, strings.no_colon f.1) (currentFilters params).
Proof.
  apply Forall_forall. intros [t v] (param & _ & Hparse)%list_elem_of_omap.
  unfold parse in Hparse. pose proof (split_no_colon param) as Hsplit.
  destruct (split param) as [|t' [|v' rest]]; [done..|].
  destruct (_ && _); [|done]. injection Hparse as -> ->.
  by apply Forall_cons in Hsplit as [? _].
Qed.

Lemma update_no_colon (l : list (string * string)) t v :
  strings.no_colon t →
  Forall (λ f, strings.no_colon f.1) l →
  Forall (λ f, strings.no_colon f.1) (update l t v).
Proof.
  intros Ht Hl. unfold update.
  destruct (findIndex _ l) as [i|].
  - by apply Forall_delete.
  - destruct (findIndex _ l) as [j|].
    + by apply Forall_insert.
    + apply Forall_app. split; [done|]. by repeat constructor.
Qed.

(** The server reads back the filters as the page writes them. *)
Lemma parse_filters_encode (l : list (string * string)) (filters : gmap string string) :
  Forall (λ f, strings.no_colon f.1) l →
  NoDup l.*1 →
  main_store.parse_filters (encode <$> l) filters = list_to_map l ∪ filters.
Proof.
  intros Hno. revert filters.
  induction Hno as [|[k v] l Hk Hl IH]; intros filters Hnd.
  - symmetry. apply (left_id_L ∅ (∪)).
  - rewrite fmap_cons in Hnd. apply NoDup_cons in Hnd as [Hnotin Hnd].
    rewrite fmap_cons. cbn [main_store.parse_filters].
    unfold strings.SplitN_colon_2, encode. simpl in *.
    rewrite cut_colon_app by done.
    rewrite IH by done. rewrite <- insert_union_l.
    by rewrite insert_union_r by (by apply not_elem_of_list_to_map).
Qed.

(** X21.  From the page to the server and back: when the URL has at most
    one filter per type and the type clicked has no colon, the filter set
    that [itemsHandler] reads from the query that [setActiveFilter] requests
    is the map of the updated filters of the page, that is the filters of
    the URL with the clicked one toggled, and the grouping is the one of the
    URL. *)
Theorem setActiveFilter_then_itemsHandler (params : main_store.Values) t v :
  strings.no_colon t →
  NoDup (currentFilters (default [] (params !! "filter"))).*1 →
  main_store.request_filters (setActiveFilter params t v)
  = list_to_map (update (currentFilters (default [] (params !! "filter"))) t v)
  ∧ main_store.request_filters (setActiveFilter params t v)
    = (if decide ((t, v) ∈ currentFilters (default [] (params !! "filter")))
       then delete t (list_to_map (currentFilters (default [] (params !! "filter"))))
       else <[t := v]>
              (list_to_map (currentFilters (default [] (params !! "filter")))))
  ∧ main_store.request_groupBy (setActiveFilter params t v)
    = main_store.request_groupBy params.
Proof.
  intros Ht Hnd.
  set (current := currentFilters (default [] (params !! "filter"))) in *.
  destruct (update_map current t v Hnd) as [Hnd' Hmap].
  assert (Forall (λ f, strings.no_colon f.1) (update current t v)) as Hno.
  { apply update_no_colon; [done|]. apply currentFilters_no_colon. }
  assert (main_store.request_filters (setActiveFilter params t v)
          = list_to_map (update current t v)) as Heq.
  { unfold main_store.request_filters, setActiveFilter, main_store.Get. fold current.
    rewrite !lookup_insert_ne by done.
    destruct (update current t v) as [|f filters] eqn:E.
    - by rewrite !lookup_empty.
    - rewrite lookup_singleton_eq, lookup_singleton_ne by done. simpl.
      change (main_store.parse_filters (encode <$> (f :: filters)) ∅
              = list_to_map (f :: filters)).
      rewrite parse_filters_encode by done. apply (right_id_L ∅ (∪)). }
  split; [done|]. split; [by rewrite Heq|].
  unfold main_store.request_groupBy, setActiveFilter, main_store.Get.
  rewrite lookup_insert_eq.
  destruct (params !! "groupBy") as [[|g ?]|]; simpl; try done.
  by repeat case_decide.
Qed.

Lemma setActiveFilter_then_itemsHandler_witness :
  main_store.request_filters
    (setActiveFilter {["filter" := ["color:red"]; "groupBy" := ["color"]]} "shape" "circle")
  = list_to_map
      (update (currentFilters
                 (default [] (({["filter" := ["color:red"]; "groupBy" := ["color"]]}
                                : main_store.Values) !! "filter")))
         "shape" "circle").
Proof.
  apply (setActiveFilter_then_itemsHandler
           {["filter" := ["color:red"]; "groupBy" := ["color"]]} "shape" "circle").
  - repeat (apply no_colon_cons; split; [discriminate|]). apply no_colon_nil.
  - apply (bool_decide_unpack _). reflexivity.
Defined.

End page_filters.

(** ** The display format of an item *)

Section formats.

Import itemstore.

Variable MapToUpper MapToLower : string → string.

Ltac each_byte a := destruct a as [[|] [|] [|] [|] [|] [|] [|] [|]].

Lemma lower_lower a : strings.lower (strings.lower a) = strings.lower a.
Proof. each_byte a; reflexivity. Qed.

Lemma upper_upper a : strings.upper (strings.upper a) = strings.upper a.
Proof. each_byte a; reflexivity. Qed.

Lemma lower_ascii a :
  (strings.byte a <? 128)%N = true → (strings.byte (strings.lower a) <? 128)%N = true.
Proof. each_byte a; intros H; try reflexivity; discriminate H. Qed.

Lemma upper_ascii a :
  (strings.byte a <? 128)%N = true → (strings.byte (strings.upper a) <? 128)%N = true.
Proof. each_byte a; intros H; try reflexivity; discriminate H. Qed.

Lemma lower_space a : strings.IsSpace1 (strings.lower a) = strings.IsSpace1 a.
Proof. each_byte a; reflexivity. Qed.

Lemma upper_space a : strings.IsSpace1 (strings.upper a) = strings.IsSpace1 a.
Proof. each_byte a; reflexivity. Qed.

Lemma ascii_not_lead a b c :
  (strings.byte a <? 128)%N = true →
  strings.IsSpace2 a b = false ∧ strings.IsSpace3 a b c = false.
Proof.
  intros Ha%N.ltb_lt. unfold strings.IsSpace2, strings.IsSpace3. simpl.
  assert ((strings.byte a =? 194)%N = false) as -> by (apply N.eqb_neq; lia).
  assert ((strings.byte a =? 225)%N = false) as -> by (apply N.eqb_neq; lia).
  assert ((strings.byte a =? 226)%N = false) as -> by (apply N.eqb_neq; lia).
  assert ((strings.byte a =? 227)%N = false) as -> by (apply N.eqb_neq; lia).
  done.
Qed.

Section bytewise.

Variable f : ascii → ascii.
Hypothesis f_ascii :
  ∀ a, (strings.byte a <? 128)%N = true → (strings.byte (f a) <? 128)%N = true.
Hypothesis f_space : ∀ a, strings.IsSpace1 (f a) = strings.IsSpace1 a.
Hypothesis f_f : ∀ a, f (f a) = f a.

Lemma map_bytes_ascii s :
  strings.isASCII s = true → strings.isASCII (strings.map_bytes f s) = true.
Proof.
  induction s as [|a s IH]; simpl; [done|].
  intros [Ha Hs]%andb_true_iff. rewrite f_ascii by done. by apply IH.
Qed.

Lemma map_bytes_all_space s :
  strings.all_space (strings.map_bytes f s) = strings.all_space s.
Proof. induction s as [|a s IH]; simpl; [done|]. by rewrite f_space, IH. Qed.

Lemma map_bytes_idemp s :
  strings.map_bytes f (strings.map_bytes f s) = strings.map_bytes f s.
Proof. induction s as [|a s IH]; simpl; [done|]. by rewrite f_f, IH. Qed.

Lemma map_bytes_length s : String.length (strings.map_bytes f s) = String.length s.
Proof. induction s as [|a s IH]; simpl; [done|]. by rewrite IH. Qed.

End bytewise.

(** On ASCII strings [TrimSpace] drops single bytes at both ends ... *)
Lemma TrimLeft_ascii s :
  strings.isASCII s = true → strings.TrimLeft s = strings.drop_space s.
Proof.
  induction s as [|a s IH]; [done|]. cbn [strings.isASCII].
  intros [Ha Hs]%andb_true_iff. cbn [strings.TrimLeft strings.drop_space].
  destruct (strings.IsSpace1 a); [by apply IH|].
  destruct s as [|b [|c s]]; [done| |].
  - by rewrite (proj1 (ascii_not_lead a b b Ha)).
  - by rewrite (proj1 (ascii_not_lead a b c Ha)), (proj2 (ascii_not_lead a b c Ha)).
Qed.

Lemma TrimLeft_rev_ascii r :
  strings.isASCII r = true → strings.TrimLeft_rev r = strings.drop_space r.
Proof.
  induction r as [|c r IH]; [done|]. cbn [strings.isASCII].
  intros [Hc Hr]%andb_true_iff. cbn [strings.TrimLeft_rev strings.drop_space].
  destruct (strings.IsSpace1 c); [by apply IH|].
  destruct r as [|b [|a r]]; [done| |].
  - cbn [strings.isASCII] in Hr. apply andb_true_iff in Hr as [Hb _].
    by rewrite (proj1 (ascii_not_lead b c c Hb)).
  - cbn [strings.isASCII] in Hr.
    apply andb_true_iff in Hr as [Hb [Ha _]%andb_true_iff].
    by rewrite (proj1 (ascii_not_lead b c c Hb)), (proj2 (ascii_not_lead a b c Ha)).
Qed.

Lemma rev_app_ascii s1 s2 :
  strings.isASCII (String.rev_app s1 s2) = strings.isASCII s1 && strings.isASCII s2.
Proof.
  revert s2. induction s1 as [|a s1 IH]; intros s2; simpl; [done|].
  rewrite IH. simpl. by destruct (_ <? _)%N, (strings.isASCII s1).
Qed.

Lemma rev_app_all_space s1 s2 :
  strings.all_space (String.rev_app s1 s2)
  = strings.all_space s1 && strings.all_space s2.
Proof.
  revert s2. induction s1 as [|a s1 IH]; intros s2; simpl; [done|].
  rewrite IH. simpl. by destruct (strings.IsSpace1 a), (strings.all_space s1).
Qed.

Lemma rev_app_empty s1 s2 : String.rev_app s1 s2 = "" → s1 = "" ∧ s2 = "".
Proof.
  revert s2. induction s1 as [|a s1 IH]; intros s2; simpl; [done|].
  by intros [_ [=]]%IH.
Qed.

Lemma drop_space_ascii s :
  strings.isASCII s = true → strings.isASCII (strings.drop_space s) = true.
Proof.
  induction s as [|a s IH]; [done|]. intros Hs. simpl.
  destruct (strings.IsSpace1 a); [|done].
  apply IH. simpl in Hs. by apply andb_true_iff in Hs as [_ ?].
Qed.

Lemma drop_space_empty s : strings.drop_space s = "" ↔ strings.all_space s = true.
Proof.
  induction s as [|a s IH]; simpl; [done|].
  destruct (strings.IsSpace1 a); simpl; [done|]. split; done.
Qed.

(** What is left after [drop_space] is empty or starts with another byte. *)
Lemma drop_space_all_space s :
  strings.all_space (strings.drop_space s) = true → strings.drop_space s = "".
Proof.
  induction s as [|a s IH]; simpl; [done|].
  destruct (strings.IsSpace1 a) eqn:E; [done|]. simpl. by rewrite E.
Qed.

(** ... so that it leaves nothing exactly of a string of white space. *)
Lemma TrimSpace_ascii_empty s :
  strings.isASCII s = true →
  strings.TrimSpace s = "" ↔ strings.all_space s = true.
Proof.
  intros Hs. unfold strings.TrimSpace, strings.TrimRight.
  rewrite TrimLeft_ascii by done.
  assert (strings.isASCII (String.rev (strings.drop_space s)) = true) as Hrev.
  { unfold String.rev. rewrite rev_app_ascii, drop_space_ascii by done. done. }
  rewrite TrimLeft_rev_ascii by done.
  rewrite <- drop_space_empty. split.
  - intros [H _]%rev_app_empty. apply drop_space_empty in H.
    unfold String.rev in H. rewrite rev_app_all_space in H.
    apply andb_true_iff in H as [H _]. by apply drop_space_all_space.
  - by intros ->.
Qed.

Lemma ToLower_ascii s :
  strings.isASCII s = true →
  strings.ToLower MapToLower s = strings.map_bytes strings.lower s.
Proof. intros Hs. unfold strings.ToLower. by rewrite Hs. Qed.

Lemma formatTitle_ascii a rest :
  strings.isASCII (String a rest) = true →
  formatTitle MapToUpper MapToLower (String a rest)
  = String (strings.upper a) (strings.map_bytes strings.lower rest).
Proof.
  simpl. intros [Ha Hrest]%andb_true_iff.
  unfold strings.ToUpper, strings.ToLower. simpl. by rewrite Ha, Hrest.
Qed.

(** The [switch] of [formatShape] changes nothing. *)
Lemma formatShape_eq shape :
  formatShape MapToLower shape = strings.ToLower MapToLower shape.
Proof. unfold formatShape. repeat case_decide; congruence. Qed.

Lemma Format_ascii i :
  ascii_item i →
  Format MapToUpper MapToLower i
  = {| ID := ID i;
       Color := strings.map_bytes strings.lower (Color i);
       Shape := strings.map_bytes strings.lower (Shape i);
       Category := match Category i with
                   | EmptyString => EmptyString
                   | String a rest =>
                       String (strings.upper a) (strings.map_bytes strings.lower rest)
                   end |}.
Proof.
  intros (Hc & Hs & Hcat). unfold Format, formatColor.
  rewrite formatShape_eq, !ToLower_ascii by done. f_equal.
  destruct (Category i) as [|a rest]; [done|]. by apply formatTitle_ascii.
Qed.

Lemma Format_ascii_item i :
  ascii_item i → ascii_item (Format MapToUpper MapToLower i).
Proof.
  intros Hi. rewrite Format_ascii by done. destruct Hi as (Hc & Hs & Hcat).
  unfold ascii_item. simpl.
  rewrite !map_bytes_ascii by auto using lower_ascii.
  split; [done|]. split; [done|].
  destruct (Category i) as [|a rest]; [done|]. simpl in *.
  apply andb_true_iff in Hcat as [Ha Hrest].
  rewrite upper_ascii by done. by rewrite map_bytes_ascii by auto using lower_ascii.
Qed.

(** X22.  On an item of ASCII strings [Format] keeps the id and the length
    of each string, gives an item of ASCII strings, and formatting twice is
    formatting once. *)
Theorem Format_ascii_idempotent i :
  ascii_item i →
  Format MapToUpper MapToLower (Format MapToUpper MapToLower i)
  = Format MapToUpper MapToLower i
  ∧ ascii_item (Format MapToUpper MapToLower i)
  ∧ ID (Format MapToUpper MapToLower i) = ID i
  ∧ String.length (Color (Format MapToUpper MapToLower i)) = String.length (Color i)
  ∧ String.length (Shape (Format MapToUpper MapToLower i)) = String.length (Shape i)
  ∧ String.length (Category (Format MapToUpper MapToLower i))
    = String.length (Category i).
Proof.
  intros Hi. pose proof (Format_ascii_item i Hi) as Hi'.
  split; [|split; [done|]].
  - rewrite (Format_ascii _ Hi'). rewrite (Format_ascii _ Hi). simpl.
    rewrite !map_bytes_idemp by apply lower_lower. f_equal.
    destruct (Category i) as [|a rest]; [done|].
    by rewrite upper_upper, map_bytes_idemp by apply lower_lower.
  - rewrite (Format_ascii _ Hi). simpl. rewrite !map_bytes_length.
    split; [done|]. split; [done|]. split; [done|].
    destruct (Category i) as [|a rest]; [done|]. simpl. by rewrite map_bytes_length.
Qed.

(** X23.  [Format] does not change what [Validate] says of an item of ASCII
    strings: the formatted item is valid exactly when the item is, and is
    rejected for the same reason. *)
Theorem Validate_Format i :
  ascii_item i →
  Validate (Format MapToUpper MapToLower i) = Validate i
  ∧ (invalid (Format MapToUpper MapToLower i) ↔ invalid i).
Proof.
  intros Hi. pose proof (Format_ascii_item i Hi) as Hi'.
  assert (invalid (Format MapToUpper MapToLower i) ↔ invalid i) as Hiff.
  { destruct Hi as (Hc & Hs & Hcat), Hi' as (Hc' & Hs' & Hcat').
    unfold invalid. rewrite !TrimSpace_ascii_empty by done.
    rewrite (Format_ascii i) by done. simpl.
    rewrite !map_bytes_all_space by apply lower_space.
    assert (strings.all_space
              match Category i with
              | EmptyString => EmptyString
              | String a rest =>
                  String (strings.upper a) (strings.map_bytes strings.lower rest)
              end = strings.all_space (Category i)) as ->; [|done].
    destruct (Category i) as [|a rest]; [done|]. simpl.
    by rewrite upper_space, map_bytes_all_space by apply lower_space. }
  split; [|done].
  destruct (decide (invalid i)) as [Hinv|Hval].
  - rewrite !Validate_Some by tauto. unfold reason.
    by rewrite (Format_ascii i) by done.
  - rewrite (proj2 (Validate_None i)) by done. apply Validate_None. tauto.
Qed.

End formats.

Lemma Format_ascii_idempotent_witness :
  itemstore.Format id id (itemstore.Format id id (itemstore.mkItem 7 "Red" "CIRCLE" "aBC"))
  = itemstore.mkItem 7 "red" "circle" "Abc".
Proof.
  destruct (Format_ascii_idempotent id id (itemstore.mkItem 7 "Red" "CIRCLE" "aBC"))
    as [-> _].
  - repeat split.
  - reflexivity.
Defined.

Lemma Validate_Format_witness :
  itemstore.Validate (itemstore.Format id id (itemstore.mkItem 7 "Red" " " "aBC"))
  = Some (itemstore.EmptyFields 7).
Proof.
  destruct (Validate_Format id id (itemstore.mkItem 7 "Red" " " "aBC")) as [-> _].
  - repeat split.
  - reflexivity.
Defined.
